(** * zod-fast-check: schema-to-generator compiler

    A shallow embedding of [src/zod-fast-check.ts] and the properties of
    its specification.

    Conventions of the embedding.
    - A JavaScript [number] is a value of [number]: an exact rational, or
      one of the IEEE specials [Infinity], [-Infinity], [NaN].  Arithmetic
      on finite values is exact: binary64 rounding, overflow and the sign
      of zero are not represented.
    - A schema node is a record with an object identity ([node_id]); the
      override table, a JavaScript [Map] keyed by object identity, is a
      [gmap] keyed by that identity, and [ZodFastCheck] instances live in
      a store so that [clone] and [override] can be read as the
      allocations and mutations they are.
    - A fast-check [Arbitrary] is the term of fast-check calls the code
      makes ([Arbitrary] below); [produces] gives the documented value
      space of the primitives the properties talk about.
    - [throw] is the [Throw] constructor of [Result]; the recursion of
      the traversal carries fuel, and [OutOfFuel] is the result of a run
      that exhausts it.
    - What fast-check and zod do inside their own functions (argument
      validation of a generator constructor, [safeParse]) is outside the
      embedding: their calls appear as terms. *)

From Stdlib Require Import ZArith QArith Qround Bool List Ascii String Lia Lqa.
From stdpp Require Import base gmap strings list fin_maps pretty.

Set Warnings "-register-all".
Local Open Scope Z_scope.

(** ** JavaScript numbers *)

Module Js.

Inductive number : Type :=
| Fin (q : Q)
| PosInf
| NegInf
| NaN.

Definition of_Z (z : Z) : number := Fin (inject_Z z).

Definition Number_MAX_SAFE_INTEGER : number := of_Z 9007199254740991.
Definition Number_MIN_SAFE_INTEGER : number := of_Z (-9007199254740991).

(** Sign of a finite value: [Lt] negative, [Eq] zero, [Gt] positive. *)
Definition sgn (q : Q) : comparison := (Qnum q ?= 0)%Z.

Definition opp_inf (pos : bool) : number := if pos then NegInf else PosInf.
Definition inf (pos : bool) : number := if pos then PosInf else NegInf.

(** [a + b] *)
Definition add (a b : number) : number :=
  match a, b with
  | NaN, _ | _, NaN => NaN
  | Fin x, Fin y => Fin (x + y)
  | PosInf, NegInf | NegInf, PosInf => NaN
  | PosInf, _ | _, PosInf => PosInf
  | NegInf, _ | _, NegInf => NegInf
  end.

(** [-a] *)
Definition neg (a : number) : number :=
  match a with
  | Fin x => Fin (- x)
  | PosInf => NegInf
  | NegInf => PosInf
  | NaN => NaN
  end.

(** [a - b] *)
Definition sub (a b : number) : number := add a (neg b).

Definition scale_inf (pos : bool) (q : Q) : number :=
  match sgn q with
  | Eq => NaN
  | Gt => inf pos
  | Lt => opp_inf pos
  end.

(** [a * b] *)
Definition mul (a b : number) : number :=
  match a, b with
  | NaN, _ | _, NaN => NaN
  | Fin x, Fin y => Fin (x * y)
  | PosInf, Fin y | Fin y, PosInf => scale_inf true y
  | NegInf, Fin y | Fin y, NegInf => scale_inf false y
  | PosInf, PosInf | NegInf, NegInf => PosInf
  | PosInf, NegInf | NegInf, PosInf => NaN
  end.

(** [a / b]; a zero divisor is the positive zero. *)
Definition div (a b : number) : number :=
  match a, b with
  | NaN, _ | _, NaN => NaN
  | Fin x, Fin y =>
      match sgn y with
      | Eq => match sgn x with Eq => NaN | Gt => PosInf | Lt => NegInf end
      | _ => Fin (x / y)
      end
  | Fin _, _ => Fin 0
  | PosInf, Fin y => match sgn y with Lt => NegInf | _ => PosInf end
  | NegInf, Fin y => match sgn y with Lt => PosInf | _ => NegInf end
  | _, _ => NaN
  end.

(** [a < b] *)
Definition ltb (a b : number) : bool :=
  match a, b with
  | NaN, _ | _, NaN => false
  | Fin x, Fin y => negb (Qle_bool y x)
  | NegInf, NegInf | PosInf, _ | _, NegInf => false
  | NegInf, _ | _, PosInf => true
  end.

(** [a <= b] *)
Definition leb (a b : number) : bool :=
  match a, b with
  | NaN, _ | _, NaN => false
  | Fin x, Fin y => Qle_bool x y
  | NegInf, _ | _, PosInf => true
  | PosInf, _ | _, NegInf => false
  end.

(** [a > b] and [a >= b] *)
Definition gtb (a b : number) : bool := ltb b a.
Definition geb (a b : number) : bool := leb b a.

(** [a === b] on numbers *)
Definition eqb (a b : number) : bool :=
  match a, b with
  | Fin x, Fin y => Qeq_bool x y
  | PosInf, PosInf | NegInf, NegInf => true
  | _, _ => false
  end.

(** [Math.max(a, b)] and [Math.min(a, b)]: [NaN] is contagious. *)
Definition Math_max (a b : number) : number :=
  match a, b with
  | NaN, _ | _, NaN => NaN
  | _, _ => if ltb a b then b else a
  end.

Definition Math_min (a b : number) : number :=
  match a, b with
  | NaN, _ | _, NaN => NaN
  | _, _ => if ltb b a then b else a
  end.

(** [Math.ceil(a)] and [Math.floor(a)] *)
Definition Math_ceil (a : number) : number :=
  match a with
  | Fin x => of_Z (Qceiling x)
  | _ => a
  end.

Definition Math_floor (a : number) : number :=
  match a with
  | Fin x => of_Z (Qfloor x)
  | _ => a
  end.

(** [a % b]: the remainder of the division truncated towards zero. *)
Definition trunc (q : Q) : Z := Z.quot (Qnum q) (Z.pos (Qden q)).

Definition rem (a b : number) : number :=
  match a, b with
  | Fin x, Fin y =>
      match sgn y with
      | Eq => NaN
      | _ => Fin (x - y * inject_Z (trunc (x / y)))
      end
  | Fin x, (PosInf | NegInf) => Fin x
  | _, _ => NaN
  end.

(** The values the code passes around. *)
Inductive value : Type :=
| VUndefined
| VNull
| VBool (b : bool)
| VNum (n : number)
| VBigInt (z : Z)
| VStr (s : string).

(** [v === true] and [v === false] *)
Definition is_true (v : value) : bool :=
  match v with VBool true => true | _ => false end.
Definition is_false (v : value) : bool :=
  match v with VBool false => true | _ => false end.

End Js.

Abbreviation number := Js.number.
Abbreviation value := Js.value.

(** ** Errors and results *)

(** A message is the sequence of the pieces of the template literal that
    builds it: text, and numbers interpolated with [${...}]. *)
Inductive Fragment : Type :=
| Text (s : string)
| Num (n : number).

Inductive Error : Type :=
| ZodFastCheckUnsupportedSchemaError (message : list Fragment)
| ZodFastCheckGenerationError (message : list Fragment)
| PlainError (message : list Fragment).

Inductive Result (A : Type) : Type :=
| Ok (a : A)
| Throw (e : Error)
| OutOfFuel.

Arguments Ok {A} a.
Arguments Throw {A} e.
Arguments OutOfFuel {A}.

(** Sequencing: a [throw] skips the rest. *)
#[global] Instance Result_bind : MBind Result := λ A B k r,
  match r with
  | Ok a => k a
  | Throw e => Throw e
  | OutOfFuel => OutOfFuel
  end.

#[global] Instance Result_fmap : FMap Result := λ A B f r,
  match r with
  | Ok a => Ok (f a)
  | Throw e => Throw e
  | OutOfFuel => OutOfFuel
  end.

(** [path || "."] *)
Definition path_or_dot (path : string) : string :=
  if String.eqb path EmptyString then "." else path.

(** The double-quote character, as a string. *)
Definition dquote : string := String "034"%char EmptyString.

(** ** Success-rate guard ([throwIfSuccessRateBelow]) *)

(** [0.01].  For counts below [2^53] the binary64 test
    [successful / total < 0.01] and the exact one agree. *)
Definition MIN_SUCCESS_RATE : number := Js.Fin (1 # 100).

Module Guard.

Definition MIN_RUNS : Z := 1000.

(** The two counters captured by the closure. *)
Record counters : Type := Counters { successful : Z; total : Z }.

Definition fresh : counters := Counters 0 0.

Definition error (path : string) : Error :=
  ZodFastCheckGenerationError
    [Text ("Unable to generate valid values for Zod schema. " +:+
           "An override is must be provided for the schema at path '" +:+
           path_or_dot path +:+ "'.")].

Section Closure.
Context {V : Type}.
Variable rate : number.
Variable predicate : V → bool.
Variable path : string.

(** One call of the returned closure: the counters after the call, and
    what the call returns or throws. *)
Definition call (c : counters) (v : V) : counters * Result bool :=
  let isSuccess := predicate v in
  let total' := total c + 1 in
  let successful' := if isSuccess then successful c + 1 else successful c in
  let c' := Counters successful' total' in
  if (MIN_RUNS <? total')
     && Js.ltb (Js.div (Js.of_Z successful') (Js.of_Z total')) rate
  then (c', Throw (error path))
  else (c', Ok isSuccess).

(** The closure called on a sequence of values, whoever catches what it
    throws: the outcome of every call, in order. *)
Fixpoint run (c : counters) (vs : list V) : list (Result bool) :=
  match vs with
  | [] => []
  | v :: vs' => snd (call c v) :: run (fst (call c v)) vs'
  end.

(** The counters after the calls on [vs]. *)
Definition final (c : counters) (vs : list V) : counters :=
  fold_left (fun c v => fst (call c v)) vs c.

End Closure.

(** Number of values of [vs] the predicate accepts. *)
Definition accepted {V : Type} (predicate : V → bool) (vs : list V) : Z :=
  Z.of_nat (length (List.filter predicate vs)).

End Guard.

(** ** Schema nodes *)

(** A check of a checks list, by its [check] tag and the fields of its
    definition that the compiler reads; [other_check] stands for every
    tag the compiler has no case for.  The function of a [custom] check
    is given on the numbers the number builder probes it with. *)
Inductive Check : Type :=
| min_length (minimum : number)
| max_length (maximum : number)
| length_equals (length : number)
| trim
| string_format (format : string) (precision : option Z) (offset : bool)
                (prefix suffix : string)
| greater_than (value : number) (inclusive : bool)
| less_than (value : number) (inclusive : bool)
| number_format (format : string)
| multiple_of (value : number)
| custom (fn : option (number → value))
| min_size (minimum : number)
| max_size (maximum : number)
| size_equals (size : number)
| other_check (tag : string).

(** The checks of a bigint schema carry bigint values. *)
Inductive BigIntCheck : Type :=
| big_greater_than (value : Z) (inclusive : bool)
| big_less_than (value : Z) (inclusive : bool)
| big_multiple_of (value : Z)
| big_other_check (tag : string).

(** A node: its object identity, the name of its constructor, and its
    definition.  [def] is the tagged union behind [_zod.def]: one
    constructor for each type tag that has an entry in
    [arbitraryBuilders], with the fields that entry reads, and
    [TForeign] for a node whose tag (possibly missing) has no entry,
    such as the tag [int]. *)
Inductive Schema : Type :=
| Node (node_id : positive) (constructor_name : string) (def : Def)
with Def : Type :=
| TString (checks : option (list Check))
| TNumber (checks : option (list Check))
| TBigint (checks : option (list BigIntCheck))
| TBoolean
| TDate
| TUndefined
| TNull
| TArray (checks : option (list Check)) (element : Schema)
| TObject (shape : list (string * Schema))
| TUnion (options : list Schema)
| TTuple (items : list Schema)
| TRecord (keyType valueType : Schema)
| TMap (keyType valueType : Schema)
| TSet (checks : option (list Check)) (valueType : Schema)
| TFunction (output : Schema)
| TLiteral (values : list value)
| TEnum (entries : list (string * value))
| TPromise (innerType : Schema)
| TAny
| TUnknown
| TNever
| TVoid
| TOptional (innerType : Schema)
| TNullable (innerType : Schema)
| TDefault (innerType : Schema)
| TTransform (in_ : Schema)
| TDiscriminatedUnion (options : list Schema)
| TNan
| TReadonly (innerType : Schema)
| TCatch (innerType : Schema)
| TPipe (in_ : Schema)
| TSymbol
| TForeign (type : option string).

Definition node_id (schema : Schema) : positive :=
  let 'Node i _ _ := schema in i.
Definition constructor_name (schema : Schema) : string :=
  let 'Node _ c _ := schema in c.
Definition def (schema : Schema) : Def :=
  let 'Node _ _ d := schema in d.

(** [schema._zod.def.type] *)
Definition def_type (d : Def) : option string :=
  match d with
  | TString _ => Some "string"
  | TNumber _ => Some "number"
  | TBigint _ => Some "bigint"
  | TBoolean => Some "boolean"
  | TDate => Some "date"
  | TUndefined => Some "undefined"
  | TNull => Some "null"
  | TArray _ _ => Some "array"
  | TObject _ => Some "object"
  | TUnion _ => Some "union"
  | TTuple _ => Some "tuple"
  | TRecord _ _ => Some "record"
  | TMap _ _ => Some "map"
  | TSet _ _ => Some "set"
  | TFunction _ => Some "function"
  | TLiteral _ => Some "literal"
  | TEnum _ => Some "enum"
  | TPromise _ => Some "promise"
  | TAny => Some "any"
  | TUnknown => Some "unknown"
  | TNever => Some "never"
  | TVoid => Some "void"
  | TOptional _ => Some "optional"
  | TNullable _ => Some "nullable"
  | TDefault _ => Some "default"
  | TTransform _ => Some "transform"
  | TDiscriminatedUnion _ => Some "discriminatedUnion"
  | TNan => Some "nan"
  | TReadonly _ => Some "readonly"
  | TCatch _ => Some "catch"
  | TPipe _ => Some "pipe"
  | TSymbol => Some "symbol"
  | TForeign t => t
  end.

Definition SCALAR_TYPES : list string :=
  ["string"; "number"; "int"; "bigint"; "boolean"; "date"; "undefined";
   "null"; "literal"; "enum"; "any"; "unknown"; "void"].

(** The own property names of [arbitraryBuilders]. *)
Definition builder_names : list string :=
  ["string"; "number"; "bigint"; "boolean"; "date"; "undefined"; "null";
   "array"; "object"; "union"; "tuple"; "record"; "map"; "set"; "function";
   "literal"; "enum"; "promise"; "any"; "unknown"; "never"; "void";
   "optional"; "nullable"; "default"; "transform"; "discriminatedUnion";
   "nan"; "readonly"; "catch"; "pipe"; "symbol"].

Definition has (names : list string) (name : string) : bool :=
  existsb (String.eqb name) names.

(** [!!typeName && hasOwnProperty(arbitraryBuilders, typeName)] *)
Definition isFirstPartyType (schema : Schema) : bool :=
  match def_type (def schema) with
  | Some typeName => negb (String.eqb typeName EmptyString) && has builder_names typeName
  | None => false
  end.

(** ** Generators *)

(** The predicate guarded by a success-rate guard. *)
Inductive Guarded : Type :=
| safeParse_success (schema : Schema)
| isUnionMember_success.

(** The closures handed to [.filter]. *)
Inductive Filter : Type :=
| not_tiny
| matches_ZOD_EMAIL_REGEX
| length_at_least (minLength : number)
| length_between (minLength maxLen : number)
| throwIfSuccessRateBelow (rate : number) (predicate : Guarded) (path : string).

(** The closures handed to [.map]. *)
Inductive Mapper : Type :=
| times (factor : number)
| prepend (prefix : string)
| append (suffix : string)
| new_Map
| new_Set
| constant_function
| Promise_resolve
| Object_freeze
| to_Symbol
| safeParse (schema : Schema)
| parsed_data.

Inductive Arbitrary : Type :=
| fc_string (constraints : option (number * number))
| fc_double (min max : number)
| fc_integer (min max : number)
| fc_bigInt (constraints : option (option Z * option Z))
| fc_boolean
| fc_date
| fc_constant (v : value)
| fc_array (element : Arbitrary) (constraints : option (number * option number))
| fc_uniqueArray (element : Arbitrary) (minLength : number)
                 (maxLength : option number)
| fc_record (model : list (string * Arbitrary))
| fc_oneof (arbs : list Arbitrary)
| fc_tuple (arbs : list Arbitrary)
| fc_dictionary (key val : Arbitrary)
| fc_option (arb : Arbitrary) (nil : value)
| fc_anything
| fc_webUrl
| fc_uuid
| fc_emailAddress
| createCuidArb
| createDatetimeStringArb (precision : option Z) (offset : bool)
| arb_map (f : Mapper) (arb : Arbitrary)
| arb_filter (p : Filter) (arb : Arbitrary).

(** What the primitives the properties mention can generate, as
    fast-check documents them: an integer within the closed range, the
    constant itself, a string whose length is within the constraints, and
    the image of a generated value under the mapped function. *)
Inductive produces : Arbitrary → value → Prop :=
| produces_integer min max (z : Z) :
    Js.leb min (Js.of_Z z) = true → Js.leb (Js.of_Z z) max = true →
    produces (fc_integer min max) (Js.VNum (Js.of_Z z))
| produces_constant v :
    produces (fc_constant v) v
| produces_string_any s :
    produces (fc_string None) (Js.VStr s)
| produces_string minLength maxLength s :
    Js.leb minLength (Js.of_Z (Z.of_nat (String.length s))) = true →
    Js.leb (Js.of_Z (Z.of_nat (String.length s))) maxLength = true →
    produces (fc_string (Some (minLength, maxLength))) (Js.VStr s)
| produces_times factor arb x :
    produces arb (Js.VNum x) →
    produces (arb_map (times factor) arb) (Js.VNum (Js.mul x factor))
| produces_prepend prefix arb s :
    produces arb (Js.VStr s) →
    produces (arb_map (prepend prefix) arb) (Js.VStr (prefix +:+ s))
| produces_append suffix arb s :
    produces arb (Js.VStr s) →
    produces (arb_map (append suffix) arb) (Js.VStr (s +:+ suffix)).

(** Whether a generator rejects samples. *)
Fixpoint uses_filter (arb : Arbitrary) : bool :=
  match arb with
  | arb_filter _ _ => true
  | arb_map _ a => uses_filter a
  | _ => false
  end.

(** ** Per-kind builders ([arbitraryBuilders]) *)

Definition SchemaToArbitrary : Type := Schema → string → Result Arbitrary.

Definition unsupported {A : Type} (schemaTypeName path : string) : Result A :=
  Throw (ZodFastCheckUnsupportedSchemaError
    [Text ("Unable to generate valid values for Zod schema. " +:+
           "'" +:+ schemaTypeName +:+ "' schemas are not supported (at path '" +:+
           path_or_dot path +:+ "').")]).

Definition filterArbitraryBySchema (arbitrary : Arbitrary) (schema : Schema)
    (path : string) : Arbitrary :=
  arb_filter
    (throwIfSuccessRateBelow MIN_SUCCESS_RATE (safeParse_success schema) path)
    arbitrary.

(** [recurse] over the elements of an array, left to right; the first
    [throw] ends it. *)
Fixpoint traverse {A B : Type} (f : A → Result B) (l : list A)
    : Result (list B) :=
  match l with
  | [] => Ok []
  | a :: l' => b ← f a; bs ← traverse f l'; Ok (b :: bs)
  end.

(** *** string *)

Module StringBuilder.

(** The locals of the builder. *)
Record locals : Type := Locals {
  minLength : number;
  maxLength : option number;
  hasUnsupportedCheck : bool;
  mappings : list Mapper
}.

Definition initial : locals := Locals (Js.of_Z 0) None false [].

(** The loop over the checks: either the locals after the last check, or
    the generator a [return] inside the loop leaves with. *)
Fixpoint loop (checks : list Check) (l : locals) : locals + Arbitrary :=
  match checks with
  | [] => inl l
  | check :: rest =>
      match check with
      | min_length minimum =>
          loop rest (Locals (Js.Math_max (minLength l) minimum) (maxLength l)
                            (hasUnsupportedCheck l) (mappings l))
      | max_length maximum =>
          loop rest (Locals (minLength l)
                            (Some (Js.Math_min (default Js.PosInf (maxLength l))
                                               maximum))
                            (hasUnsupportedCheck l) (mappings l))
      | length_equals length =>
          loop rest (Locals length (Some length)
                            (hasUnsupportedCheck l) (mappings l))
      | trim => loop rest l
      | string_format format precision offset prefix suffix =>
          if String.eqb format "datetime" then
            inr (createDatetimeStringArb precision offset)
          else if String.eqb format "email" then loop rest l
          else if String.eqb format "url" then inr fc_webUrl
          else if String.eqb format "uuid" then inr fc_uuid
          else if String.eqb format "cuid" then inr createCuidArb
          else if String.eqb format "starts_with" then
            loop rest (Locals (minLength l) (maxLength l)
                              (hasUnsupportedCheck l)
                              (mappings l ++ [prepend prefix]))
          else if String.eqb format "ends_with" then
            loop rest (Locals (minLength l) (maxLength l)
                              (hasUnsupportedCheck l)
                              (mappings l ++ [append suffix]))
          else
            loop rest (Locals (minLength l) (maxLength l) true (mappings l))
      | _ =>
          loop rest (Locals (minLength l) (maxLength l) true (mappings l))
      end
  end.

Definition is_email (c : Check) : bool :=
  match c with
  | string_format format _ _ _ _ => String.eqb format "email"
  | _ => false
  end.

Definition build (schema : Schema) (checks : option (list Check))
    (path : string) : Arbitrary :=
  match checks with
  | None => fc_string None
  | Some checks =>
      match loop checks initial with
      | inr early => early
      | inl l =>
          if existsb is_email checks then
            let emailArb := arb_filter matches_ZOD_EMAIL_REGEX fc_emailAddress in
            match maxLength l with
            | Some maxLen =>
                arb_filter (length_between (minLength l) maxLen) emailArb
            | None => arb_filter (length_at_least (minLength l)) emailArb
            end
          else
            let maxLength :=
              match maxLength l with
              | Some m => m
              | None => Js.add (Js.mul (Js.of_Z 2) (minLength l)) (Js.of_Z 10)
              end in
            let unfiltered :=
              fold_left (fun arb mapping => arb_map mapping arb) (mappings l)
                        (fc_string (Some (minLength l, maxLength))) in
            if hasUnsupportedCheck l
            then filterArbitraryBySchema unfiltered schema path
            else unfiltered
      end
  end.

End StringBuilder.

(** *** number *)

(** [tryGenerateSmartlyForRefinement] *)
Module Smart.

Definition testValues : list Z := [0; 1; 2; 3; 6; 9; 12; -3; -6].
Definition equalityValues : list Z := [-42; 0; 42; 100; -100].

Section Probe.
Variable refinementFn : number → value.

Definition rejects_non_multiples : bool :=
  Js.is_false (refinementFn (Js.of_Z 1))
  && Js.is_false (refinementFn (Js.of_Z 2))
  && Js.is_false (refinementFn (Js.of_Z 4)).

(** The first loop: the divisor it leaves in [moduloDivisor]. *)
Fixpoint detect_modulo (tests : list Z) : option number :=
  match tests with
  | [] => None
  | testVal :: rest =>
      let result := refinementFn (Js.of_Z testVal) in
      if Js.is_true result && (Z.rem testVal 3 =? 0) then
        if rejects_non_multiples then Some (Js.of_Z 3)
        else detect_modulo rest
      else detect_modulo rest
  end.

(** The second loop: the constant it returns with, if any. *)
Fixpoint detect_equality (tests : list Z) (min max : number)
    : option Arbitrary :=
  match tests with
  | [] => None
  | testVal :: rest =>
      if Js.is_true (refinementFn (Js.of_Z testVal))
         && (Js.is_false (refinementFn (Js.of_Z (testVal - 1)))
             && Js.is_false (refinementFn (Js.of_Z (testVal + 1))))
         && (Js.geb (Js.of_Z testVal) min && Js.leb (Js.of_Z testVal) max)
      then Some (fc_constant (Js.VNum (Js.of_Z testVal)))
      else detect_equality rest min max
  end.

End Probe.

Definition tryGenerateSmartlyForRefinement (check : Check) (min max : number)
    : option Arbitrary :=
  match check with
  | custom (Some refinementFn) =>
      let fallthrough := detect_equality refinementFn equalityValues min max in
      match detect_modulo refinementFn testValues with
      | Some moduloDivisor =>
          let intMin := Js.Math_ceil (Js.div min moduloDivisor) in
          let intMax := Js.Math_floor (Js.div max moduloDivisor) in
          if Js.leb intMin intMax
          then Some (arb_map (times moduloDivisor) (fc_integer intMin intMax))
          else fallthrough
      | None => fallthrough
      end
  | _ => None
  end.

End Smart.

(** The refinement [x => x % 3 === 0]. *)
Definition divisible_by_3 (x : number) : value :=
  Js.VBool (Js.eqb (Js.rem x (Js.of_Z 3)) (Js.of_Z 0)).

Module NumberBuilder.

Record locals : Type := Locals {
  min : number;
  max : option number;
  hasExplicitMax : bool;
  isFinite : bool;
  multipleOf : option number;
  hasSafeIntFormat : bool;
  customChecks : list Check
}.

Definition initial : locals :=
  Locals (Js.of_Z (-1000000)) None false false None false [].

Definition milli : number := Js.Fin (1 # 1000).

(** One iteration of the loop over the checks. *)
Definition step (l : locals) (check : Check) : locals :=
  match check with
  | greater_than value inclusive =>
      Locals (Js.Math_max (min l)
                (if inclusive then value else Js.add value milli))
             (max l) (hasExplicitMax l) (isFinite l) (multipleOf l)
             (hasSafeIntFormat l) (customChecks l)
  | less_than value inclusive =>
      let ltValue := if inclusive then value else Js.sub value milli in
      Locals (min l)
             (Some (match max l with
                    | None => ltValue
                    | Some m => Js.Math_min m ltValue
                    end))
             true true (multipleOf l) (hasSafeIntFormat l) (customChecks l)
  | number_format format =>
      if String.eqb format "int32" || String.eqb format "uint32"
         || String.eqb format "safeint"
      then Locals (min l) (max l) (hasExplicitMax l) (isFinite l)
                  (Some (default (Js.of_Z 1) (multipleOf l)))
                  (if String.eqb format "safeint" then true
                   else hasSafeIntFormat l)
                  (customChecks l)
      else l
  | multiple_of value =>
      Locals (min l) (max l) (hasExplicitMax l) (isFinite l)
             (Some (Js.mul (default (Js.of_Z 1) (multipleOf l)) value))
             (hasSafeIntFormat l) (customChecks l)
  | custom _ =>
      Locals (min l) (max l) (hasExplicitMax l) (isFinite l) (multipleOf l)
             (hasSafeIntFormat l) (customChecks l ++ [check])
  | _ => l
  end.

Definition loop (checks : list Check) : locals := fold_left step checks initial.

(** The clamp to the safe-integer range that follows the loop. *)
Definition clamp (l : locals) : locals :=
  if hasSafeIntFormat l then
    Locals (Js.Math_max (min l) Js.Number_MIN_SAFE_INTEGER)
           (Some (match max l with
                  | None => Js.Number_MAX_SAFE_INTEGER
                  | Some m => Js.Math_min m Js.Number_MAX_SAFE_INTEGER
                  end))
           (hasExplicitMax l) (isFinite l) (multipleOf l)
           (hasSafeIntFormat l) (customChecks l)
  else l.

(** The bounds handed to [fc.integer] on the multiple-of path. *)
Definition integerMin (l : locals) (factor : number) : number :=
  Js.Math_ceil (Js.div (min l) factor).

Definition integerMax (l : locals) (factor : number) : number :=
  let finalMax := default Js.Number_MAX_SAFE_INTEGER (max l) in
  let integerMax := Js.Math_floor (Js.div finalMax factor) in
  if hasSafeIntFormat l then
    Js.Math_min integerMax
      (Js.Math_floor (Js.div Js.Number_MAX_SAFE_INTEGER factor))
  else integerMax.

Definition inverted_bounds_error (path : string) (integerMin integerMax : number)
    : Error :=
  ZodFastCheckGenerationError
    [Text "Unable to generate valid integer values for schema at ";
     Text dquote; Text path; Text dquote; Text ": ";
     Text "computed min ("; Num integerMin;
     Text ") is greater than max ("; Num integerMax; Text "). ";
     Text "This may occur when constraints are impossible to satisfy (e.g., min > max). ";
     Text "An override is must be provided for this schema."].

(** The generator of numbers within the bounds, before refinements. *)
Definition base (l : locals) (path : string) : Result Arbitrary :=
  match multipleOf l with
  | Some factor =>
      let integerMin := integerMin l factor in
      let integerMax := integerMax l factor in
      if Js.gtb integerMin integerMax
      then Throw (inverted_bounds_error path integerMin integerMax)
      else Ok (arb_map (times factor) (fc_integer integerMin integerMax))
  | None =>
      let doubleMax :=
        match max l with
        | Some m => Js.Math_min m Js.Number_MAX_SAFE_INTEGER
        | None => Js.of_Z 1000000
        end in
      Ok (arb_filter not_tiny
            (fc_double (Js.Math_max (min l) (Js.of_Z (-1000000))) doubleMax))
  end.

(** The loop over the custom checks: the first smart generator found. *)
Fixpoint first_smart (customChecks : list Check) (min finalMax : number)
    : option Arbitrary :=
  match customChecks with
  | [] => None
  | customCheck :: rest =>
      match Smart.tryGenerateSmartlyForRefinement customCheck min finalMax with
      | Some smart => Some smart
      | None => first_smart rest min finalMax
      end
  end.

Definition build (schema : Schema) (checks : option (list Check))
    (path : string) : Result Arbitrary :=
  match checks with
  | None =>
      Ok (arb_filter not_tiny
            (fc_double (Js.of_Z (-1000000)) (Js.of_Z 1000000)))
  | Some checks =>
      let l := clamp (loop checks) in
      arbitrary ← base l path;
      match customChecks l with
      | [] => Ok arbitrary
      | _ :: _ =>
          let finalMax :=
            default (if hasSafeIntFormat l then Js.Number_MAX_SAFE_INTEGER
                     else Js.of_Z 1000000) (max l) in
          match first_smart (customChecks l) (min l) finalMax with
          | Some smartArbitrary => Ok smartArbitrary
          | None => Ok (filterArbitraryBySchema arbitrary schema path)
          end
      end
  end.

End NumberBuilder.

(** *** bigint *)

Module BigintBuilder.

Definition step (mm : option Z * option Z) (check : BigIntCheck)
    : option Z * option Z :=
  let '(min, max) := mm in
  match check with
  | big_greater_than value inclusive =>
      let gtValue := if inclusive then value else value + 1 in
      (Some (match min with
             | None => gtValue
             | Some m => if gtValue <? m then gtValue else m
             end), max)
  | big_less_than value inclusive =>
      let ltValue := if inclusive then value else value - 1 in
      (min, Some (match max with
                  | None => ltValue
                  | Some m => if m <? ltValue then ltValue else m
                  end))
  | _ => mm
  end.

Definition build (checks : option (list BigIntCheck)) : Arbitrary :=
  match checks with
  | None => fc_bigInt None
  | Some checks => fc_bigInt (Some (fold_left step checks (None, None)))
  end.

End BigintBuilder.

(** *** array and set *)

Module LengthBounds.

(** The locals [minLength] and [maxLength] of the array and set builders. *)
Definition bounds : Type := number * option number.

Definition initial : bounds := (Js.of_Z 0, None).

Definition array_step (b : bounds) (check : Check) : bounds :=
  match check with
  | min_length minimum => (minimum, snd b)
  | max_length maximum => (fst b, Some maximum)
  | length_equals length => (length, Some length)
  | _ => b
  end.

Definition set_step (b : bounds) (check : Check) : bounds :=
  match check with
  | min_size minimum => (minimum, snd b)
  | max_size maximum => (fst b, Some maximum)
  | size_equals size => (size, Some size)
  | _ => b
  end.

Definition array_loop (checks : option (list Check)) : bounds :=
  match checks with
  | None => initial
  | Some checks => fold_left array_step checks initial
  end.

Definition set_loop (checks : option (list Check)) : bounds :=
  match checks with
  | None => initial
  | Some checks => fold_left set_step checks initial
  end.

End LengthBounds.

(** *** enum *)

(** The members of an enum object are strings or (integer) numbers. *)
Definition property_key (v : value) : option string :=
  match v with
  | Js.VStr s => Some s
  | Js.VNum (Js.Fin q) =>
      if (Qden q =? 1)%positive then Some (pretty (Qnum q)) else None
  | _ => None
  end.

Definition property (obj : list (string * value)) (key : string)
    : option value :=
  snd <$> List.find (fun e => String.eqb (fst e) key) obj.

Definition is_number (v : option value) : bool :=
  match v with Some (Js.VNum _) => true | _ => false end.

(** [getValidEnumValues]: the members that are not the reverse mapping of
    a numeric member. *)
Definition getValidEnumValues (obj : list (string * value)) : list value :=
  snd <$> List.filter
    (fun e => negb (is_number (property_key (snd e) ≫= property obj))) obj.

(** *** the table *)

Section Builders.
Variable recurse : SchemaToArbitrary.

(** [arbitraryBuilders[typeName](schema, path, recurse)], or [None] where
    the table has no entry. *)
Definition arbitraryBuilders (schema : Schema) (path : string)
    : option (Result Arbitrary) :=
  match def schema with
  | TString checks => Some (Ok (StringBuilder.build schema checks path))
  | TNumber checks => Some (NumberBuilder.build schema checks path)
  | TBigint checks => Some (Ok (BigintBuilder.build checks))
  | TBoolean => Some (Ok fc_boolean)
  | TDate => Some (Ok fc_date)
  | TUndefined => Some (Ok (fc_constant Js.VUndefined))
  | TNull => Some (Ok (fc_constant Js.VNull))
  | TArray checks element =>
      let '(minLength, maxLength) := LengthBounds.array_loop checks in
      Some (elt ← recurse element (path +:+ "[*]");
            Ok (fc_array elt (Some (minLength, maxLength))))
  | TObject shape =>
      Some (propertyArbitraries ←
              traverse (fun '(property, propSchema) =>
                          arb ← recurse propSchema (path +:+ "." +:+ property);
                          Ok (property, arb)) shape;
            Ok (fc_record propertyArbitraries))
  | TUnion options =>
      Some (arbs ← traverse (fun option => recurse option path) options;
            Ok (fc_oneof arbs))
  | TTuple items =>
      Some (arbs ← traverse (fun '(index, item) =>
                      recurse item (path +:+ "[" +:+ pretty index +:+ "]"))
                    (imap pair items);
            Ok (fc_tuple arbs))
  | TRecord keyType valueType =>
      Some (keyArb ← recurse keyType path;
            valueArb ← recurse valueType (path +:+ "[*]");
            Ok (fc_dictionary keyArb valueArb))
  | TMap keyType valueType =>
      Some (key ← recurse keyType (path +:+ ".(key)");
            val ← recurse valueType (path +:+ ".(value)");
            Ok (arb_map new_Map (fc_array (fc_tuple [key; val]) None)))
  | TSet checks valueType =>
      let '(minLength, maxLength) := LengthBounds.set_loop checks in
      Some (elt ← recurse valueType (path +:+ ".(value)");
            Ok (arb_map new_Set (fc_uniqueArray elt minLength maxLength)))
  | TFunction output =>
      Some (ret ← recurse output (path +:+ ".(return type)");
            Ok (arb_map constant_function ret))
  | TLiteral values =>
      Some (Ok (fc_constant (default Js.VUndefined (head values))))
  | TEnum entries =>
      Some (Ok (fc_oneof (fc_constant <$> getValidEnumValues entries)))
  | TPromise innerType =>
      Some (inner ← recurse innerType (path +:+ ".(resolved type)");
            Ok (arb_map Promise_resolve inner))
  | TAny => Some (Ok fc_anything)
  | TUnknown => Some (Ok fc_anything)
  | TNever => Some (unsupported "Never" path)
  | TVoid => Some (Ok (fc_constant Js.VUndefined))
  | TOptional innerType =>
      Some (inner ← recurse innerType path;
            Ok (fc_option inner Js.VUndefined))
  | TNullable innerType =>
      Some (inner ← recurse innerType path; Ok (fc_option inner Js.VNull))
  | TDefault innerType =>
      Some (inner ← recurse innerType path;
            Ok (fc_oneof [fc_constant Js.VUndefined; inner]))
  | TTransform in_ =>
      Some (preEffectsArbitrary ← recurse in_ path;
            Ok (filterArbitraryBySchema preEffectsArbitrary schema path))
  | TDiscriminatedUnion options =>
      (* [options] is an array: the keys are its indices, in order *)
      Some (arbs ← traverse (fun option => recurse option path) options;
            Ok (fc_oneof arbs))
  | TNan => Some (Ok (fc_constant (Js.VNum Js.NaN)))
  | TReadonly innerType =>
      Some (inner ← recurse innerType path; Ok (arb_map Object_freeze inner))
  | TCatch innerType =>
      Some (inner ← recurse innerType path; Ok (fc_oneof [inner; fc_anything]))
  | TPipe in_ =>
      Some (inner ← recurse in_ path;
            Ok (arb_filter
                  (throwIfSuccessRateBelow MIN_SUCCESS_RATE
                     (safeParse_success schema) path) inner))
  | TSymbol => Some (Ok (arb_map to_Symbol (fc_string None)))
  | TForeign _ => None
  end.

End Builders.

(** ** The compiler ([_ZodFastCheck]) *)

(** What an override factory can do with the instance it is handed:
    compile inputs and outputs with it. *)
Record Handle : Type := {
  handle_inputOf : Schema → Result Arbitrary;
  handle_outputOf : Schema → Result Arbitrary
}.

(** An entry of the override table: a generator, or a function of the
    instance. *)
Inductive OverrideArbitrary : Type :=
| Fixed (arbitrary : Arbitrary)
| Factory (f : Handle → Result Arbitrary).

(** The [overrides] map of an instance, keyed by node identity. *)
Abbreviation Overrides := (gmap positive OverrideArbitrary).

Section Instance.
Variable overrides : Overrides.

(** [findOverride]: [None] is [null]. *)
Definition findOverride (this : Handle) (schema : Schema)
    : option (Result Arbitrary) :=
  match overrides !! node_id schema with
  | Some (Factory f) => Some (f this)
  | Some (Fixed arbitrary) => Some (Ok arbitrary)
  | None => None
  end.

(** The tail of [outputOf], once [inputOf] has returned. *)
Definition derive_output (schema : Schema) (inputArbitrary : Arbitrary)
    : Arbitrary :=
  if isFirstPartyType schema
     && match def_type (def schema) with
        | Some typeName => has SCALAR_TYPES typeName
        | None => false
        end
  then inputArbitrary
  else
    arb_map parsed_data
      (arb_filter
         (throwIfSuccessRateBelow MIN_SUCCESS_RATE isUnionMember_success
            EmptyString)
         (arb_map (safeParse schema) inputArbitrary)).

(** The name [unsupported] is called with when no builder applies. *)
Definition unsupported_name (schema : Schema) : string :=
  let constructorName := constructor_name schema in
  if String.prefix "Zod" constructorName
  then String.substring 3 (String.length constructorName - 3) constructorName
  else constructorName.

(** [inputWithPath]; [fuel] bounds the depth of the calls. *)
Fixpoint inputWithPath (fuel : nat) (schema : Schema) (path : string)
    : Result Arbitrary :=
  match fuel with
  | O => OutOfFuel
  | S fuel' =>
      let this :=
        {| handle_inputOf := fun s => inputWithPath fuel' s EmptyString;
           handle_outputOf := fun s =>
             derive_output s <$> inputWithPath fuel' s EmptyString |} in
      match findOverride this schema with
      | Some override => override
      | None =>
          match
            (if isFirstPartyType schema
             then arbitraryBuilders (inputWithPath fuel') schema path
             else None)
          with
          | Some built => built
          | None => unsupported (unsupported_name schema) path
          end
      end
  end.

Definition inputOf (fuel : nat) (schema : Schema) : Result Arbitrary :=
  inputWithPath fuel schema EmptyString.

Definition outputOf (fuel : nat) (schema : Schema) : Result Arbitrary :=
  inputArbitrary ← inputOf fuel schema;
  Ok (derive_output schema inputArbitrary).

End Instance.

(** *** Instances as objects *)

(** The instances allocated so far, each with its [overrides] map. *)
Abbreviation Heap := (gmap positive Overrides).

Module Instance.

(** [new _ZodFastCheck()] *)
Definition new (h : Heap) : positive * Heap :=
  let this := fresh (dom h) in (this, <[this := ∅]> h).

Definition overrides_of (h : Heap) (this : positive) : Overrides :=
  default ∅ (h !! this).

(** [this.overrides.set(schema, arbitrary)]: the map of the instance
    [this] is updated in place, at the identity of the node. *)
Definition set (h : Heap) (this : positive) (schema : positive)
    (arbitrary : OverrideArbitrary) : Heap :=
  <[this := <[schema := arbitrary]> (overrides_of h this)]> h.

(** [clone]: a new instance, then one [set] on it for every entry of
    [this.overrides]. *)
Definition clone (h : Heap) (this : positive) : positive * Heap :=
  let '(cloned, h1) := new h in
  (cloned,
   map_fold (fun schema arbitrary h' => set h' cloned schema arbitrary)
            h1 (overrides_of h this)).

(** [override] *)
Definition override (h : Heap) (this : positive) (schema : Schema)
    (arbitrary : OverrideArbitrary) : positive * Heap :=
  let '(withOverride, h1) := clone h this in
  (withOverride, set h1 withOverride (node_id schema) arbitrary).

End Instance.

(** ** The pieces of a cuid ([createCuidArb]) *)

Module Cuid.

(** [s.padStart(targetLength, "0")] *)
Fixpoint zeros (n : nat) : string :=
  match n with
  | O => EmptyString
  | S n' => String "0"%char (zeros n')
  end.

Definition padStart_0 (targetLength : nat) (s : string) : string :=
  zeros (targetLength - String.length s) +:+ s.

(** [n.toString().padStart(4, "0")], for the integer drawn for the
    counter. *)
Definition counter (n : Z) : string := padStart_0 4 (pretty n).

(** The string the final mapping assembles from the four parts. *)
Definition assemble (timestamp : string) (n : Z) (fingerprint random : string)
    : string :=
  "c" +:+ timestamp +:+ counter n +:+ fingerprint +:+ random.

End Cuid.

(** ** Vocabulary of the properties *)

(** The values of the [min_length] checks and of the [max_length] checks
    of a list, in declaration order. *)
Definition minimums (checks : list Check) : list number :=
  omap (fun c => match c with min_length m => Some m | _ => None end) checks.

Definition maximums (checks : list Check) : list number :=
  omap (fun c => match c with max_length m => Some m | _ => None end) checks.

Definition is_length_bound (c : Check) : Prop :=
  match c with
  | min_length _ | max_length _ => True
  | _ => False
  end.

(** The resolved bounds, in the words of the property: the largest
    minimum (at least 0), and the smallest maximum or, without any
    [max_length] check, twice the minimum plus ten. *)
Definition resolved_min (checks : list Check) : number :=
  fold_left Js.Math_max (minimums checks) (Js.of_Z 0).

Definition resolved_max (checks : list Check) : number :=
  match maximums checks with
  | [] => Js.add (Js.mul (Js.of_Z 2) (resolved_min checks)) (Js.of_Z 10)
  | m :: ms => fold_left Js.Math_min ms (Js.Math_min Js.PosInf m)
  end.

(** The custom checks (refinements) of a checks list. *)
Definition is_custom (c : Check) : bool :=
  match c with custom _ => true | _ => false end.

(** Whether a number passes a bound check, as the schema validates it. *)
Definition satisfies_bound (c : Check) (x : number) : Prop :=
  match c with
  | greater_than value inclusive =>
      if inclusive then Js.leb value x = true else Js.ltb value x = true
  | less_than value inclusive =>
      if inclusive then Js.leb x value = true else Js.ltb x value = true
  | _ => True
  end.

(** Every argument [tryGenerateSmartlyForRefinement] calls the refinement
    with. *)
Definition smart_probes : list Z :=
  Smart.testValues ++ [1; 2; 4]
  ++ flat_map (fun testVal => [testVal; testVal - 1; testVal + 1])
              Smart.equalityValues.

(** The refinement [x => x === 0]. *)
Definition equals_0 (x : number) : value := Js.VBool (Js.eqb x (Js.of_Z 0)).

(** The value a bound check contributes to [min] or [max]. *)
Definition closed_lower (value : number) (inclusive : bool) : number :=
  if inclusive then value else Js.add value NumberBuilder.milli.

Definition closed_upper (value : number) (inclusive : bool) : number :=
  if inclusive then value else Js.sub value NumberBuilder.milli.

(** A format check on which the string builder returns from inside its
    loop. *)
Definition is_terminal (c : Check) : bool :=
  match c with
  | string_format format _ _ _ _ =>
      String.eqb format "datetime" || String.eqb format "url"
      || String.eqb format "uuid" || String.eqb format "cuid"
  | _ => false
  end.

(** A check the string builder has a case for (the formats it returns on
    and the email format aside). *)
Definition is_handled (c : Check) : bool :=
  match c with
  | min_length _ | max_length _ | length_equals _ | trim => true
  | string_format format _ _ _ _ =>
      String.eqb format "starts_with" || String.eqb format "ends_with"
  | _ => false
  end.

(** Neither a format the builder returns on nor the email format. *)
Definition is_plain (c : Check) : bool :=
  negb (is_terminal c) && negb (StringBuilder.is_email c).

(** The affix a [starts_with] or [ends_with] check declares, and a
    string with the affixes of a list put around it, one after the other
    in declaration order. *)
Definition affix_of (c : Check) : option Mapper :=
  match c with
  | string_format format _ _ prefix suffix =>
      if String.eqb format "starts_with" then Some (prepend prefix)
      else if String.eqb format "ends_with" then Some (append suffix)
      else None
  | _ => None
  end.

Definition with_affix (s : string) (m : Mapper) : string :=
  match m with
  | prepend prefix => prefix +:+ s
  | append suffix => s +:+ suffix
  | _ => s
  end.

Definition affix_length (m : Mapper) : nat :=
  match m with
  | prepend prefix => String.length prefix
  | append suffix => String.length suffix
  | _ => 0
  end.

Definition is_length_or_affix (c : Check) : Prop :=
  match c with
  | min_length _ | max_length _ => True
  | _ => is_Some (affix_of c)
  end.

(** The closed bound a bigint check declares. *)
Definition big_lower_of (c : BigIntCheck) : option Z :=
  match c with
  | big_greater_than value inclusive =>
      Some (if inclusive then value else value + 1)
  | _ => None
  end.

Definition big_upper_of (c : BigIntCheck) : option Z :=
  match c with
  | big_less_than value inclusive =>
      Some (if inclusive then value else value - 1)
  | _ => None
  end.

(** The length or size a check of an array or of a set declares as the
    minimum, and as the maximum. *)
Definition array_min_of (c : Check) : option number :=
  match c with
  | min_length n | length_equals n => Some n
  | _ => None
  end.

Definition array_max_of (c : Check) : option number :=
  match c with
  | max_length n | length_equals n => Some n
  | _ => None
  end.

Definition set_min_of (c : Check) : option number :=
  match c with
  | min_size n | size_equals n => Some n
  | _ => None
  end.

Definition set_max_of (c : Check) : option number :=
  match c with
  | max_size n | size_equals n => Some n
  | _ => None
  end.

(** The object of a TypeScript numeric enum: the reverse mapping, from
    the decimal form of each number to a name, is enumerated before the
    forward mapping, from each name to its number. *)
Definition enum_reverse (rs : list (string * Z)) : list (string * value) :=
  map (fun e => (pretty (snd e), Js.VStr (fst e))) rs.

Definition enum_forward (members : list (string * Z))
    : list (string * value) :=
  map (fun e => (fst e, Js.VNum (Js.of_Z (snd e)))) members.

(** * Properties *)

(** ** The success-rate guard *)

Module GuardFacts.
Import Guard.

Section Closure.
Context {V : Type}.
Variable predicate : V → bool.
Variable path : string.

Lemma call_counters rate c v :
  fst (call rate predicate path c v) =
  Counters (successful c + (if predicate v then 1 else 0)) (total c + 1).
Proof.
  unfold call.
  destruct (_ && _); simpl; destruct (predicate v); f_equal; lia.
Qed.

Lemma call_outcome rate c v :
  snd (call rate predicate path c v) =
  if (MIN_RUNS <? total c + 1)
     && Js.ltb (Js.div (Js.of_Z (successful c + (if predicate v then 1 else 0)))
                       (Js.of_Z (total c + 1))) rate
  then Throw (error path) else Ok (predicate v).
Proof.
  unfold call.
  replace (if predicate v then successful c + 1 else successful c)
    with (successful c + (if predicate v then 1 else 0))
    by (destruct (predicate v); lia).
  destruct (_ && _); reflexivity.
Qed.

Lemma final_counters rate vs c :
  final rate predicate path c vs =
  Counters (successful c + accepted predicate vs)
           (total c + Z.of_nat (length vs)).
Proof.
  unfold final, accepted.
  revert c; induction vs as [|v vs IH]; intros c; simpl.
  - destruct c; simpl; f_equal; lia.
  - rewrite IH, call_counters; simpl.
    destruct (predicate v); simpl; f_equal; lia.
Qed.

(** The [n]-th call sees the counters left by the [n] calls before it. *)
Lemma run_lookup rate vs c n v :
  vs !! n = Some v →
  run rate predicate path c vs !! n =
  Some (snd (call rate predicate path
               (final rate predicate path c (take n vs)) v)).
Proof.
  revert c n; induction vs as [|w vs IH]; intros c [|n] Hv; simpl in *;
    try discriminate.
  - congruence.
  - apply IH, Hv.
Qed.

(** [successful / total < 0.01], for the counts of a running guard. *)
Lemma ratio_below_floor s t :
  0 < t →
  Js.ltb (Js.div (Js.of_Z s) (Js.of_Z t)) MIN_SUCCESS_RATE = true ↔
  100 * s < t.
Proof.
  intros Ht. unfold Js.div, Js.of_Z, Js.sgn, MIN_SUCCESS_RATE; simpl.
  destruct (Z.compare_spec t 0) as [?|?|_]; try lia.
  simpl. rewrite negb_true_iff, <- not_true_iff_false, Qle_bool_iff.
  unfold Qle, Qdiv, Qmult, Qinv; simpl.
  destruct t as [|p|p]; try lia; simpl.
  split; intros H; lia.
Qed.

(** C1. A guard created with the 1% rate, called on the values [vs] one
    after the other from fresh counters: the call number [n + 1] returns
    the raw predicate result as long as [n + 1] is at most 1000, and any
    later call at which fewer than 1% of the calls so far (this one
    included) were accepted throws the generation error whose message
    carries the path and asks for an override. *)
Theorem guard_warm_up_then_floor (vs : list V) (n : nat) (v : V) :
  vs !! n = Some v →
  (Z.of_nat (S n) ≤ 1000 →
   run MIN_SUCCESS_RATE predicate path fresh vs !! n
   = Some (Ok (predicate v)))
  ∧ (1000 < Z.of_nat (S n) →
     100 * accepted predicate (take (S n) vs) < Z.of_nat (S n) →
     run MIN_SUCCESS_RATE predicate path fresh vs !! n
     = Some (Throw (ZodFastCheckGenerationError
         [Text ("Unable to generate valid values for Zod schema. " +:+
                "An override is must be provided for the schema at path '" +:+
                (if String.eqb path EmptyString then "." else path) +:+ "'.")]))).
Proof.
  intros Hv.
  assert (Hlen : length (take n vs) = n).
  { apply length_take_le. apply lookup_lt_Some in Hv. lia. }
  assert (Hacc : accepted predicate (take (S n) vs)
                 = accepted predicate (take n vs)
                   + (if predicate v then 1 else 0)).
  { rewrite (take_S_r _ _ _ Hv). unfold accepted.
    rewrite List.filter_app, length_app; simpl.
    destruct (predicate v); simpl; lia. }
  rewrite (run_lookup _ _ _ _ _ Hv), call_outcome, final_counters, Hlen.
  unfold successful, total, fresh.
  replace (0 + Z.of_nat n + 1) with (Z.of_nat (S n)) by lia.
  replace (0 + accepted predicate (take n vs) + _)
    with (accepted predicate (take (S n) vs)) by lia.
  split.
  - intros Hk.
    replace (MIN_RUNS <? Z.of_nat (S n)) with false; [reflexivity|].
    symmetry. apply Z.ltb_ge. unfold MIN_RUNS. lia.
  - intros Hk Hlow.
    replace (MIN_RUNS <? Z.of_nat (S n)) with true
      by (symmetry; apply Z.ltb_lt; unfold MIN_RUNS; lia).
    assert (Hpos : 0 < Z.of_nat (S n)) by lia.
    rewrite (proj2 (ratio_below_floor _ _ Hpos) Hlow). reflexivity.
Qed.

End Closure.

(** A predicate that accepts nothing: the 1001st call throws. *)
Lemma guard_warm_up_then_floor_witness :
  run MIN_SUCCESS_RATE (fun _ : Z => false) ".age" fresh (replicate 1001 0)
    !! 1000%nat
  = Some (Throw (ZodFastCheckGenerationError
      [Text "Unable to generate valid values for Zod schema. An override is must be provided for the schema at path '.age'."])).
Proof.
  apply (proj2 (guard_warm_up_then_floor (fun _ : Z => false) ".age"
                  (replicate 1001 0) 1000 0 eq_refl)).
  - vm_compute. reflexivity.
  - vm_compute. reflexivity.
Defined.

End GuardFacts.

(** ** Order facts on JavaScript numbers *)

Module JsFacts.

Lemma Qltb_iff (x y : Q) : negb (Qle_bool y x) = true ↔ (x < y)%Q.
Proof.
  rewrite negb_true_iff, <- not_true_iff_false, Qle_bool_iff.
  split; [apply Qnot_le_lt | apply Qlt_not_le].
Qed.

Lemma ltb_trans a b c :
  Js.ltb a b = true → Js.ltb b c = true → Js.ltb a c = true.
Proof.
  destruct a, b, c; simpl; try congruence.
  rewrite !Qltb_iff. apply Qlt_trans.
Qed.

Lemma leb_trans a b c :
  Js.leb a b = true → Js.leb b c = true → Js.leb a c = true.
Proof.
  destruct a, b, c; simpl; try congruence.
  rewrite !Qle_bool_iff. apply Qle_trans.
Qed.

Lemma ltb_leb a b : Js.ltb a b = true → Js.leb a b = true.
Proof.
  destruct a, b; simpl; try congruence.
  rewrite Qltb_iff, Qle_bool_iff. apply Qlt_le_weak.
Qed.

Lemma ltb_not_NaN a b : Js.ltb a b = true → a ≠ Js.NaN ∧ b ≠ Js.NaN.
Proof. destruct a, b; simpl; intros; split; congruence. Qed.

Lemma Math_max_cases a b :
  Js.Math_max a b = Js.NaN
  ∨ (Js.Math_max a b = b ∧ Js.leb a b = true)
  ∨ (Js.Math_max a b = a ∧ Js.leb b a = true).
Proof.
  destruct (Js.ltb a b) eqn:E.
  - right; left. split; [|apply ltb_leb, E].
    destruct a, b; simpl in *; try congruence; rewrite E; reflexivity.
  - destruct a, b; simpl in *; try rewrite E; auto;
      right; right; (split; [reflexivity|]);
      try reflexivity; try discriminate.
    apply negb_false_iff in E. exact E.
Qed.

Lemma Math_min_cases a b :
  Js.Math_min a b = Js.NaN
  ∨ (Js.Math_min a b = b ∧ Js.leb b a = true)
  ∨ (Js.Math_min a b = a ∧ Js.leb a b = true).
Proof.
  destruct (Js.ltb b a) eqn:E.
  - right; left. split; [|apply ltb_leb, E].
    destruct a, b; simpl in *; try congruence; rewrite E; reflexivity.
  - destruct a, b; simpl in *; try rewrite E; auto;
      right; right; (split; [reflexivity|]);
      try reflexivity; try discriminate.
    apply negb_false_iff in E. exact E.
Qed.

(** A lower bound that is the larger of two is above both... *)
Lemma leb_Math_max a b y :
  Js.leb (Js.Math_max a b) y = true → Js.leb a y = true ∧ Js.leb b y = true.
Proof.
  destruct (Math_max_cases a b) as [E|[[E H]|[E H]]]; rewrite E; intros Hy.
  - discriminate.
  - split; [eapply leb_trans; eassumption | assumption].
  - split; [assumption | eapply leb_trans; eassumption].
Qed.

(** ... and an upper bound that is the smaller of two is below both. *)
Lemma leb_Math_min a b y :
  Js.leb y (Js.Math_min a b) = true → Js.leb y a = true ∧ Js.leb y b = true.
Proof.
  destruct (Math_min_cases a b) as [E|[[E H]|[E H]]]; rewrite E; intros Hy.
  - destruct y; discriminate.
  - split; [eapply leb_trans; eassumption | assumption].
  - split; [assumption | eapply leb_trans; eassumption].
Qed.

(** Taking the smaller of an upper bound and a number keeps a strict
    inversion. *)
Lemma gtb_Math_min a b c :
  c ≠ Js.NaN → Js.gtb a b = true → Js.gtb a (Js.Math_min b c) = true.
Proof.
  unfold Js.gtb. intros Hc Hab.
  destruct (ltb_not_NaN _ _ Hab) as [Hb _].
  destruct (Js.ltb c b) eqn:E.
  - replace (Js.Math_min b c) with c
      by (destruct b, c; simpl in *; try congruence; rewrite E; reflexivity).
    eapply ltb_trans; eassumption.
  - replace (Js.Math_min b c) with b
      by (destruct b, c; simpl in *; try congruence; rewrite E; reflexivity).
    assumption.
Qed.

Lemma div_finite_not_NaN x b :
  Js.sgn x ≠ Eq → b ≠ Js.NaN → Js.div (Js.Fin x) b ≠ Js.NaN.
Proof.
  intros Hx Hb. destruct b; simpl; try congruence.
  destruct (Js.sgn q); try congruence.
  destruct (Js.sgn x); congruence.
Qed.

Lemma Math_floor_not_NaN a : a ≠ Js.NaN → Js.Math_floor a ≠ Js.NaN.
Proof. destruct a; simpl; unfold Js.of_Z; congruence. Qed.

Lemma div_NaN_r a : Js.div a Js.NaN = Js.NaN.
Proof. destruct a; reflexivity. Qed.

End JsFacts.

(** ** The builder table inside the compiler *)

Module CompilerFacts.

(** Without an override entry, a node whose tag has a builder compiles to
    what its builder returns. *)
Lemma inputWithPath_builder overrides fuel schema path built :
  overrides !! node_id schema = None →
  isFirstPartyType schema = true →
  arbitraryBuilders (inputWithPath overrides fuel) schema path = Some built →
  inputWithPath overrides (S fuel) schema path = built.
Proof.
  intros Hov Hfp Hb. simpl. unfold findOverride.
  rewrite Hov, Hfp, Hb. reflexivity.
Qed.

End CompilerFacts.

(** ** The number interpreter *)

Module NumberFacts.
Import NumberBuilder.

(** C2. A number schema on the multiple-of path whose resolved bounds give
    [ceil(min / factor) > floor(max / factor)]: the builder throws the
    generation error that cites the path, and so does the compilation of
    such a node (one without an override entry) with any fuel; no
    generator is returned, so nothing is left to fail while sampling. *)
Theorem number_inverted_bounds_throw
    (schema : Schema) (checks : list Check) (path : string) (factor : number) :
  let l := clamp (loop checks) in
  multipleOf l = Some factor →
  Js.gtb (Js.Math_ceil (Js.div (min l) factor))
         (Js.Math_floor
            (Js.div (default Js.Number_MAX_SAFE_INTEGER (max l)) factor))
    = true →
  let error :=
    ZodFastCheckGenerationError
      [Text "Unable to generate valid integer values for schema at ";
       Text dquote; Text path; Text dquote; Text ": ";
       Text "computed min ("; Num (integerMin l factor);
       Text ") is greater than max ("; Num (integerMax l factor);
       Text "). ";
       Text "This may occur when constraints are impossible to satisfy (e.g., min > max). ";
       Text "An override is must be provided for this schema."] in
  build schema (Some checks) path = Throw error
  ∧ ∀ (overrides : Overrides) (fuel : nat) (id : positive) (ctor : string),
      overrides !! id = None →
      inputWithPath overrides (S fuel) (Node id ctor (TNumber (Some checks)))
        path = Throw error.
Proof.
  intros l Hf Hinv error.
  assert (Hgt : Js.gtb (integerMin l factor) (integerMax l factor) = true).
  { unfold integerMin, integerMax.
    destruct (hasSafeIntFormat l); [|exact Hinv].
    apply JsFacts.gtb_Math_min; [|exact Hinv].
    apply JsFacts.Math_floor_not_NaN, JsFacts.div_finite_not_NaN;
      [vm_compute; discriminate|].
    intros ->. rewrite JsFacts.div_NaN_r in Hinv.
    apply JsFacts.ltb_not_NaN in Hinv. simpl in Hinv. tauto. }
  assert (Hb : ∀ s, build s (Some checks) path = Throw error).
  { intros s. unfold build. fold l. unfold base. rewrite Hf, Hgt.
    reflexivity. }
  split; [apply Hb|].
  intros overrides fuel id ctor Hov.
  apply CompilerFacts.inputWithPath_builder;
    [exact Hov | reflexivity |].
  unfold arbitraryBuilders, def. rewrite Hb. reflexivity.
Qed.

(** [z.number().min(1).max(4).multipleOf(5)]: no multiple of 5 in [1, 4]. *)
Lemma number_inverted_bounds_throw_witness :
  ∃ e,
    inputWithPath ∅ 1
      (Node 1 "ZodNumber"
         (TNumber (Some [greater_than (Js.of_Z 1) true;
                         less_than (Js.of_Z 4) true;
                         multiple_of (Js.of_Z 5)])))
      ".n"
    = Throw (ZodFastCheckGenerationError e)
    ∧ In (Text ".n") e.
Proof.
  eexists. split.
  - apply (proj2 (number_inverted_bounds_throw
             (Node 1 "ZodNumber" (TNumber None))
             [greater_than (Js.of_Z 1) true; less_than (Js.of_Z 4) true;
              multiple_of (Js.of_Z 5)]
             ".n" (Js.Fin (1 * 5)) eq_refl eq_refl) ∅ O 1%positive "ZodNumber").
    reflexivity.
  - simpl. tauto.
Defined.

End NumberFacts.

(** ** The string interpreter *)

Module StringFacts.
Import StringBuilder.

Lemma minimums_In m checks : In (min_length m) checks → In m (minimums checks).
Proof.
  intros H. apply list_elem_of_In, list_elem_of_omap.
  exists (min_length m). split; [apply list_elem_of_In, H | reflexivity].
Qed.

Lemma maximums_In m checks : In (max_length m) checks → In m (maximums checks).
Proof.
  intros H. apply list_elem_of_In, list_elem_of_omap.
  exists (max_length m). split; [apply list_elem_of_In, H | reflexivity].
Qed.

Lemma leb_fold_Math_max xs x0 y :
  Js.leb (fold_left Js.Math_max xs x0) y = true →
  Js.leb x0 y = true ∧ ∀ m, In m xs → Js.leb m y = true.
Proof.
  revert x0; induction xs as [|x xs IH]; intros x0 H; simpl in *.
  - split; [assumption | tauto].
  - destruct (IH _ H) as [H0 Hxs].
    destruct (JsFacts.leb_Math_max _ _ _ H0) as [Ha Hb].
    split; [assumption|]. intros m [<-|Hm]; auto.
Qed.

Lemma leb_fold_Math_min xs x0 y :
  Js.leb y (fold_left Js.Math_min xs x0) = true →
  Js.leb y x0 = true ∧ ∀ m, In m xs → Js.leb y m = true.
Proof.
  revert x0; induction xs as [|x xs IH]; intros x0 H; simpl in *.
  - split; [assumption | tauto].
  - destruct (IH _ H) as [H0 Hxs].
    destruct (JsFacts.leb_Math_min _ _ _ H0) as [Ha Hb].
    split; [assumption|]. intros m [<-|Hm]; auto.
Qed.

(** With length checks only, the loop runs to its end and leaves the
    folds of [Math.max] and [Math.min] in the locals. *)
Lemma loop_length_bounds checks l :
  Forall is_length_bound checks →
  loop checks l =
  inl (Locals
         (fold_left Js.Math_max (minimums checks) (minLength l))
         (fold_left (fun acc m => Some (Js.Math_min (default Js.PosInf acc) m))
                    (maximums checks) (maxLength l))
         (hasUnsupportedCheck l) (mappings l)).
Proof.
  intros H; revert l; induction H as [|c checks Hc _ IH]; intros l.
  - destruct l; reflexivity.
  - destruct c; try contradiction; simpl; rewrite IH; reflexivity.
Qed.

Lemma fold_Math_min_Some ms m0 :
  fold_left (fun acc m => Some (Js.Math_min (default Js.PosInf acc) m)) ms
            (Some m0)
  = Some (fold_left Js.Math_min ms m0).
Proof.
  revert m0; induction ms as [|m ms IH]; intros m0; simpl; [reflexivity|].
  apply IH.
Qed.

Lemma no_email checks :
  Forall is_length_bound checks → existsb is_email checks = false.
Proof.
  induction 1 as [|c checks Hc _ IH]; simpl; [reflexivity|].
  rewrite IH. destruct c; try contradiction; reflexivity.
Qed.

(** C9. A string schema whose checks are [min_length] and [max_length]
    checks only compiles to the bounded-length string generator over the
    resolved bounds; every string it generates has a length of at least
    0 and every declared minimum, and of at most every declared maximum;
    without a [max_length] check the upper bound is [2 * a + 10]; and a
    schema without a checks list compiles to the unconstrained string
    generator. *)
Theorem string_length_within_bounds
    (schema : Schema) (checks : list Check) (path : string) :
  Forall is_length_bound checks →
  let a := resolved_min checks in
  let b := resolved_max checks in
  build schema (Some checks) path = fc_string (Some (a, b))
  ∧ (maximums checks = [] →
     b = Js.add (Js.mul (Js.of_Z 2) a) (Js.of_Z 10))
  ∧ (∀ s, produces (build schema (Some checks) path) (Js.VStr s) →
       let n := Js.of_Z (Z.of_nat (String.length s)) in
       Js.leb a n = true ∧ Js.leb n b = true
       ∧ (∀ m, In (min_length m) checks → Js.leb m n = true)
       ∧ (∀ m, In (max_length m) checks → Js.leb n m = true))
  ∧ build schema None path = fc_string None
  ∧ (∀ (overrides : Overrides) (fuel : nat) (id : positive) (ctor : string),
       overrides !! id = None →
       inputWithPath overrides (S fuel) (Node id ctor (TString (Some checks)))
         path = Ok (fc_string (Some (a, b)))
       ∧ inputWithPath overrides (S fuel) (Node id ctor (TString None)) path
         = Ok (fc_string None)).
Proof.
  intros Hc a b.
  assert (Hany : ∀ s, build s (Some checks) path = fc_string (Some (a, b))).
  { intros s. unfold build. rewrite (loop_length_bounds _ _ Hc), (no_email _ Hc).
    subst a b. unfold resolved_max, resolved_min. simpl.
    destruct (maximums checks) as [|m ms]; simpl; [reflexivity|].
    rewrite fold_Math_min_Some. reflexivity. }
  pose proof (Hany schema) as Hbuild.
  split; [exact Hbuild|].
  split; [intros E; subst b; unfold resolved_max; rewrite E; reflexivity|].
  split; [|split; [reflexivity|]].
  2:{ intros overrides fuel id ctor Hov.
      split; apply CompilerFacts.inputWithPath_builder;
        try exact Hov; try reflexivity.
      unfold arbitraryBuilders, def. rewrite Hany. reflexivity. }
  rewrite Hbuild. intros s Hs n. inversion Hs as [| | |lo hi s' Hlo Hhi| | |]; subst.
  fold n in Hlo, Hhi.
  split; [exact Hlo|]. split; [exact Hhi|]. split.
  - intros m Hm. apply (leb_fold_Math_max _ _ _ Hlo), minimums_In, Hm.
  - intros m Hm. apply maximums_In in Hm.
    subst b. unfold resolved_max in Hhi.
    destruct (maximums checks) as [|m0 ms]; [contradiction|].
    destruct (leb_fold_Math_min _ _ _ Hhi) as [H0 Hms].
    destruct Hm as [<-|Hm]; [|apply Hms, Hm].
    apply (JsFacts.leb_Math_min _ _ _ H0).
Qed.

(** [z.string().min(5).max(10)] generates ["hello!"], of length 6. *)
Lemma string_length_within_bounds_witness :
  let checks := [min_length (Js.of_Z 5); max_length (Js.of_Z 10)] in
  let schema := Node 1 "ZodString" (TString (Some checks)) in
  build schema (Some checks) ".name"
  = fc_string (Some (Js.Math_max (Js.of_Z 0) (Js.of_Z 5),
                     Js.Math_min Js.PosInf (Js.of_Z 10)))
  ∧ produces (build schema (Some checks) ".name") (Js.VStr "hello!").
Proof.
  intros checks schema.
  split.
  - apply (string_length_within_bounds schema checks ".name").
    repeat constructor.
  - rewrite (proj1 (string_length_within_bounds schema checks ".name"
                      ltac:(repeat constructor))).
    apply produces_string; reflexivity.
Defined.

End StringFacts.

(** ** Exclusive bounds in the number interpreter *)

Module BoundFacts.
Import NumberBuilder.

Lemma ceil_after_milli (z : Z) :
  Js.Math_ceil (Js.div (Js.add (Js.of_Z z) milli) (Js.of_Z 1)) = Js.of_Z (z + 1).
Proof.
  unfold Js.div, Js.add, Js.of_Z, milli, Js.Math_ceil. simpl.
  unfold Js.of_Z. do 2 f_equal.
  unfold Qceiling, Qfloor, Qdiv, Qmult, Qinv, Qplus, Qopp, inject_Z; simpl.
  change (Z.pos (1 * 1000 * 1)) with 1000.
  replace (- ((z * 1000 + 1 * 1) * 1)) with (- (z + 1) * 1000 + 999) by lia.
  rewrite Z.div_add_l by lia.
  change (999 `div` 1000) with 0. lia.
Qed.

Lemma floor_after_milli (z : Z) :
  Js.Math_floor (Js.div (Js.sub (Js.of_Z z) milli) (Js.of_Z 1)) = Js.of_Z (z - 1).
Proof.
  unfold Js.div, Js.sub, Js.add, Js.neg, Js.of_Z, milli, Js.Math_floor. simpl.
  unfold Js.of_Z. do 2 f_equal.
  unfold Qfloor, Qdiv, Qmult, Qinv, Qplus, Qopp, inject_Z; simpl.
  change (Z.pos (1 * 1000 * 1)) with 1000.
  match goal with |- ?n `div` 1000 = _ =>
    replace n with ((z - 1) * 1000 + 999) by lia end.
  rewrite Z.div_add_l by lia.
  change (999 `div` 1000) with 0. lia.
Qed.




End BoundFacts.

(** ** Repeated checks of one kind *)

Module TighteningFacts.

(** The number interpreter tightens: a check never lowers [min] ... *)
Lemma number_min_never_loosens (l : NumberBuilder.locals) (check : Check) :
  let l' := NumberBuilder.step l check in
  NumberBuilder.min l' = NumberBuilder.min l
  ∨ NumberBuilder.min l' = Js.NaN
  ∨ Js.leb (NumberBuilder.min l) (NumberBuilder.min l') = true.
Proof.
  destruct check; simpl; auto.
  - destruct (JsFacts.Math_max_cases (NumberBuilder.min l)
                (if inclusive then value else Js.add value NumberBuilder.milli))
      as [E|[[E H]|[E H]]]; rewrite E; auto.
  - destruct (_ || _); auto.
Qed.

(** ... and never raises a [max] that is set. *)
Lemma number_max_never_loosens (l : NumberBuilder.locals) (check : Check) m :
  NumberBuilder.max l = Some m →
  ∃ m', NumberBuilder.max (NumberBuilder.step l check) = Some m'
        ∧ (m' = m ∨ m' = Js.NaN ∨ Js.leb m' m = true).
Proof.
  intros Hm. destruct check; simpl; rewrite ?Hm; eauto.
  - eexists; split; [reflexivity|].
    destruct (JsFacts.Math_min_cases m
                (if inclusive then value else Js.sub value NumberBuilder.milli))
      as [E|[[E H]|[E H]]]; rewrite E; auto.
  - destruct (_ || _); simpl; eauto.
Qed.

(** So does the string interpreter on its [min_length] and [max_length]
    checks. *)
Lemma string_min_length_tightens m rest l :
  StringBuilder.loop (min_length m :: rest) l
  = StringBuilder.loop rest
      (StringBuilder.Locals (Js.Math_max (StringBuilder.minLength l) m)
         (StringBuilder.maxLength l) (StringBuilder.hasUnsupportedCheck l)
         (StringBuilder.mappings l)).
Proof. reflexivity. Qed.

Lemma string_max_length_tightens m rest l :
  StringBuilder.loop (max_length m :: rest) l
  = StringBuilder.loop rest
      (StringBuilder.Locals (StringBuilder.minLength l)
         (Some (Js.Math_min (default Js.PosInf (StringBuilder.maxLength l)) m))
         (StringBuilder.hasUnsupportedCheck l) (StringBuilder.mappings l)).
Proof. reflexivity. Qed.

(** C3 at [z.array(z.boolean()).min(5).min(2).max(3).max(8)] and at the
    set with the same sizes: the array and set loops keep the value of the
    last check of a kind, here the looser one, where the string loop run
    on the same length checks keeps the maximum of the minimums and the
    minimum of the maximums. *)
Theorem array_set_last_check_wins :
  let lengths := [min_length (Js.of_Z 5); min_length (Js.of_Z 2);
                  max_length (Js.of_Z 3); max_length (Js.of_Z 8)] in
  let sizes := [min_size (Js.of_Z 5); min_size (Js.of_Z 2);
                max_size (Js.of_Z 3); max_size (Js.of_Z 8)] in
  let boolean := Node 2 "ZodBoolean" TBoolean in
  LengthBounds.array_loop (Some lengths) = (Js.of_Z 2, Some (Js.of_Z 8))
  ∧ inputOf ∅ 2 (Node 1 "ZodArray" (TArray (Some lengths) boolean))
    = Ok (fc_array fc_boolean (Some (Js.of_Z 2, Some (Js.of_Z 8))))
  ∧ LengthBounds.set_loop (Some sizes) = (Js.of_Z 2, Some (Js.of_Z 8))
  ∧ inputOf ∅ 2 (Node 1 "ZodSet" (TSet (Some sizes) boolean))
    = Ok (arb_map new_Set
            (fc_uniqueArray fc_boolean (Js.of_Z 2) (Some (Js.of_Z 8))))
  ∧ StringBuilder.build (Node 1 "ZodString" (TString (Some lengths)))
      (Some lengths) EmptyString
    = fc_string (Some (Js.of_Z 5, Js.of_Z 3)).
Proof. repeat split; reflexivity. Qed.

End TighteningFacts.

(** ** The override registry and the traversal *)

Module OverrideFacts.

(** C5. When the override table has an entry for a node, compiling the
    node returns the entry, a fixed generator as it is and a factory
    applied to the instance being used, for every path and any fuel.
    The result does not depend on the node's constructor, tag, checks or
    children: any other node with the same identity compiles to the
    same result. *)
Theorem override_precedes_dispatch
    (overrides : Overrides) (fuel : nat) (schema : Schema) (path : string)
    (entry : OverrideArbitrary) :
  overrides !! node_id schema = Some entry →
  inputWithPath overrides (S fuel) schema path
  = match entry with
    | Fixed arbitrary => Ok arbitrary
    | Factory f =>
        f {| handle_inputOf := inputOf overrides fuel;
             handle_outputOf := fun s =>
               derive_output s <$> inputOf overrides fuel s |}
    end
  ∧ ∀ ctor' def' path',
      inputWithPath overrides (S fuel) (Node (node_id schema) ctor' def') path'
      = inputWithPath overrides (S fuel) schema path.
Proof.
  intros Hov.
  assert (H : ∀ s p, node_id s = node_id schema →
            inputWithPath overrides (S fuel) s p
            = match entry with
              | Fixed arbitrary => Ok arbitrary
              | Factory f =>
                  f {| handle_inputOf := inputOf overrides fuel;
                       handle_outputOf := fun s =>
                         derive_output s <$> inputOf overrides fuel s |}
              end).
  { intros s p Hs. simpl. unfold findOverride. rewrite Hs, Hov.
    destruct entry; reflexivity. }
  split; [apply H; reflexivity|].
  intros ctor' def' path'. rewrite !H; reflexivity.
Qed.

(** A never schema, which no builder can compile, with an override. *)
Lemma override_precedes_dispatch_witness :
  inputWithPath {[ 5%positive := Fixed fc_uuid ]} 1
    (Node 5 "ZodNever" TNever) ".id"
  = Ok fc_uuid.
Proof.
  refine (proj1 (override_precedes_dispatch {[ 5%positive := Fixed fc_uuid ]} O
                  (Node 5 "ZodNever" TNever) ".id" (Fixed fc_uuid) _)).
  vm_compute. reflexivity.
Defined.

End OverrideFacts.

(** ** Derived instances *)

Module InstanceFacts.
Import Instance.

Lemma new_fresh (h : Heap) : h !! fst (new h) = None.
Proof.
  unfold new; simpl. apply not_elem_of_dom, is_fresh.
Qed.

(** Copying the entries one by one into the new instance gives it the
    same table, and touches no other instance. *)
Lemma clone_copies (h : Heap) (this : positive) :
  clone h this = (fst (new h), <[fst (new h) := overrides_of h this]> h).
Proof.
  unfold clone, new; simpl. f_equal.
  set (cloned := fresh (dom h)).
  apply (map_fold_weak_ind
           (fun (r : Heap) (m : Overrides) => r = <[cloned := m]> h)).
  - reflexivity.
  - intros i x m r _ ->.
    unfold set, overrides_of. rewrite lookup_insert_eq; simpl.
    apply insert_insert_eq.
Qed.

Lemma override_inserts (h : Heap) (this : positive) (schema : Schema)
    (arbitrary : OverrideArbitrary) :
  override h this schema arbitrary
  = (fst (new h),
     <[fst (new h) := <[node_id schema := arbitrary]> (overrides_of h this)]> h).
Proof.
  unfold override. rewrite clone_copies. unfold set, overrides_of.
  rewrite lookup_insert_eq; simpl. f_equal. apply insert_insert_eq.
Qed.

(** C6. [override], called on an existing instance, allocates a new
    instance and leaves every instance that existed as it was, the one it
    is called on included; the new instance holds the given entry for the
    node and, for a node of any other identity, what the original holds
    for it, whatever that node's definition is (a copy of the overridden
    node included). *)
Theorem override_copy_on_write
    (h : Heap) (this : positive) (schema : Schema)
    (arbitrary : OverrideArbitrary) :
  is_Some (h !! this) →
  let withOverride := fst (override h this schema arbitrary) in
  let h' := snd (override h this schema arbitrary) in
  h !! withOverride = None
  ∧ withOverride ≠ this
  ∧ (∀ other, is_Some (h !! other) → h' !! other = h !! other)
  ∧ overrides_of h' this = overrides_of h this
  ∧ overrides_of h' withOverride
    = <[node_id schema := arbitrary]> (overrides_of h this)
  ∧ overrides_of h' withOverride !! node_id schema = Some arbitrary
  ∧ (∀ ctor def ctor' id',
       schema = Node (node_id schema) ctor def →
       id' ≠ node_id schema →
       overrides_of h' withOverride !! node_id (Node id' ctor' def)
       = overrides_of h this !! node_id (Node id' ctor' def)).
Proof.
  intros Hthis w h'. subst w h'. rewrite override_inserts; simpl.
  pose proof (new_fresh h) as Hfresh.
  set (w := fst (new h)) in *.
  assert (Hne : w ≠ this).
  { intros ->. destruct Hthis as [ov Hov]. congruence. }
  assert (Hother : ∀ other ov',
            w ≠ other → (<[w := ov']> h : Heap) !! other = h !! other).
  { intros other ov' Hneq. apply lookup_insert_ne, Hneq. }
  assert (Hw : ∀ ov', overrides_of (<[w := ov']> h) w = ov').
  { intros ov'. unfold overrides_of. rewrite lookup_insert_eq. reflexivity. }
  split; [exact Hfresh|].
  split; [exact Hne|].
  split.
  { intros other [ov Hov]. apply Hother. intros <-. congruence. }
  split.
  { unfold overrides_of at 1. rewrite Hother by exact Hne. reflexivity. }
  split; [apply Hw|].
  split; [rewrite Hw; apply lookup_insert_eq|].
  intros ctor def ctor' id' _ Hid. rewrite Hw. simpl.
  apply lookup_insert_ne. congruence.
Qed.

(** Two string nodes with the same definition; the first is overridden
    in a derived instance.  The original instance still compiles both
    with the string builder, the derived one compiles the first to the
    override and the second as before. *)
Lemma override_copy_on_write_witness :
  let h : Heap := {[ 1%positive := ∅ ]} in
  let name := Node 10 "ZodString" (TString None) in
  let other := Node 11 "ZodString" (TString None) in
  let '(derived, h') := override h 1 name (Fixed fc_uuid) in
  overrides_of h' 1 = overrides_of h 1
  ∧ inputOf (overrides_of h' 1) 1 name = Ok (fc_string None)
  ∧ inputOf (overrides_of h' derived) 1 name = Ok fc_uuid
  ∧ inputOf (overrides_of h' derived) 1 other = Ok (fc_string None).
Proof.
  intros h name other.
  destruct (override h 1 name (Fixed fc_uuid)) as [derived h'] eqn:E.
  assert (Hthis : is_Some (h !! 1%positive)) by (vm_compute; eauto).
  pose proof (override_copy_on_write h 1 name (Fixed fc_uuid) Hthis) as H.
  rewrite E in H. simpl in H.
  destruct H as (_ & _ & _ & H1 & _).
  split; [exact H1|].
  vm_compute in E. injection E as <- <-.
  vm_compute. repeat split; reflexivity.
Defined.

End InstanceFacts.

(** ** Output generators *)

Module OutputFacts.

Lemma bind_Ok {A : Type} (r : Result A) : (a ← r; Ok a) = r.
Proof. destruct r; reflexivity. Qed.




End OutputFacts.

(** ** Refinements of number schemas *)

Module RefinementFacts.
Import NumberBuilder.

Lemma customChecks_step l c :
  customChecks (step l c)
  = customChecks l ++ (if is_custom c then [c] else []).
Proof.
  destruct c; simpl; rewrite ?app_nil_r; try reflexivity.
  destruct (_ || _); simpl; rewrite ?app_nil_r; reflexivity.
Qed.

Lemma customChecks_fold checks l :
  customChecks (fold_left step checks l)
  = customChecks l ++ List.filter is_custom checks.
Proof.
  revert l; induction checks as [|c checks IH]; intros l; simpl.
  - rewrite app_nil_r. reflexivity.
  - rewrite IH, customChecks_step.
    destruct (is_custom c); simpl; rewrite <- ?app_assoc; simpl;
      rewrite ?app_nil_r; reflexivity.
Qed.

(** The custom checks the builder probes are those of the checks list,
    in declaration order. *)
Lemma customChecks_loop checks :
  customChecks (clamp (loop checks)) = List.filter is_custom checks.
Proof.
  unfold clamp, loop.
  destruct (hasSafeIntFormat _); simpl; apply customChecks_fold.
Qed.

Lemma detect_modulo_found fn tests :
  (∃ t, In t tests ∧ Js.is_true (fn (Js.of_Z t)) = true ∧ Z.rem t 3 = 0) →
  Smart.rejects_non_multiples fn = true →
  Smart.detect_modulo fn tests = Some (Js.of_Z 3).
Proof.
  intros (t & Hin & Ht & Hr) Hrej.
  induction tests as [|u tests IH]; [contradiction|].
  simpl. rewrite Hrej.
  destruct Hin as [->|Hin].
  - rewrite Ht. apply Z.eqb_eq in Hr. rewrite Hr. reflexivity.
  - rewrite (IH Hin). destruct (_ && _); reflexivity.
Qed.

Lemma tryGenerate_modulo fn min max :
  Smart.detect_modulo fn Smart.testValues = Some (Js.of_Z 3) →
  Js.leb (Js.Math_ceil (Js.div min (Js.of_Z 3)))
         (Js.Math_floor (Js.div max (Js.of_Z 3))) = true →
  Smart.tryGenerateSmartlyForRefinement (custom (Some fn)) min max
  = Some (arb_map (times (Js.of_Z 3))
            (fc_integer (Js.Math_ceil (Js.div min (Js.of_Z 3)))
                        (Js.Math_floor (Js.div max (Js.of_Z 3))))).
Proof.
  intros Hm Hr. unfold Smart.tryGenerateSmartlyForRefinement.
  rewrite Hm, Hr. reflexivity.
Qed.

(** A multiple of three leaves no remainder. *)
Lemma rem_times_3 z :
  Js.eqb (Js.rem (Js.mul (Js.of_Z z) (Js.of_Z 3)) (Js.of_Z 3)) (Js.of_Z 0)
  = true.
Proof.
  unfold Js.rem, Js.mul, Js.of_Z; simpl.
  unfold Js.eqb. apply Qeq_bool_iff.
  unfold Js.trunc, Qdiv, Qmult, Qinv, Qminus, Qplus, Qopp, Qeq, inject_Z; simpl.
  replace (z * 3 * 1) with (z * 3) by lia.
  rewrite Z.quot_mul by lia. lia.
Qed.





End RefinementFacts.

(** ** Literals *)

Module LiteralFacts.

(** C10. A literal schema that declares a first value and at least one
    more: its builder, and the compilation of such a node when no
    override is registered for it, return the constant generator of the
    first value; every value generated is that first value, so a
    declared value different from it is never generated. *)
Theorem literal_first_value_only
    (recurse : SchemaToArbitrary) (id : positive) (ctor path : string)
    (first second : value) (more : list value) :
  let values := first :: second :: more in
  let schema := Node id ctor (TLiteral values) in
  arbitraryBuilders recurse schema path = Some (Ok (fc_constant first))
  ∧ (∀ (overrides : Overrides) (fuel : nat),
       overrides !! id = None →
       inputWithPath overrides (S fuel) schema path = Ok (fc_constant first))
  ∧ (∀ v, produces (fc_constant first) v → v = first)
  ∧ (∀ v, In v (second :: more) → v ≠ first →
          ¬ produces (fc_constant first) v).
Proof.
  intros values schema.
  assert (Hv : ∀ v, produces (fc_constant first) v → v = first).
  { intros v Hv. inversion Hv. reflexivity. }
  split; [reflexivity|]. split; [|split; [exact Hv|]].
  - intros overrides fuel Hov.
    apply CompilerFacts.inputWithPath_builder;
      [exact Hov | reflexivity | reflexivity].
  - intros v _ Hne Hp. apply Hne, Hv, Hp.
Qed.

(** [z.literal(["a", "b"])] *)
Lemma literal_first_value_only_witness :
  inputWithPath ∅ 1
    (Node 1 "ZodLiteral" (TLiteral [Js.VStr "a"; Js.VStr "b"])) ".kind"
  = Ok (fc_constant (Js.VStr "a"))
  ∧ ¬ produces (fc_constant (Js.VStr "a")) (Js.VStr "b").
Proof.
  pose proof (literal_first_value_only (fun _ _ => OutOfFuel) 1 "ZodLiteral"
                ".kind" (Js.VStr "a") (Js.VStr "b") []) as H.
  simpl in H. destruct H as (_ & Hc & _ & Hn).
  split.
  - apply Hc. reflexivity.
  - apply Hn; [simpl; tauto | discriminate].
Defined.

End LiteralFacts.

(** * Further properties of the code *)

(** ** The guard after the warm-up *)

Module GuardMore.
Import Guard.

Section Closure.
Context {V : Type}.
Variable predicate : V → bool.
Variable path : string.

Lemma accepted_take_S (vs : list V) (n : nat) (v : V) :
  vs !! n = Some v →
  accepted predicate (take (S n) vs)
  = accepted predicate (take n vs) + (if predicate v then 1 else 0).
Proof.
  intros Hv. rewrite (take_S_r _ _ _ Hv). unfold accepted.
  rewrite List.filter_app, length_app; simpl.
  destruct (predicate v); simpl; lia.
Qed.

(** The outcome of call [n + 1] of a fresh guard, from the counts alone. *)
Lemma run_fresh_lookup (vs : list V) (n : nat) (v : V) :
  vs !! n = Some v →
  run MIN_SUCCESS_RATE predicate path fresh vs !! n
  = Some (if (1000 <? Z.of_nat (S n))
             && (100 * accepted predicate (take (S n) vs) <? Z.of_nat (S n))
          then Throw (error path) else Ok (predicate v)).
Proof.
  intros Hv.
  assert (Hlen : length (take n vs) = n).
  { apply length_take_le. apply lookup_lt_Some in Hv. lia. }
  rewrite (GuardFacts.run_lookup _ _ _ _ _ _ _ Hv), GuardFacts.call_outcome,
    GuardFacts.final_counters, Hlen.
  unfold successful, total, fresh, MIN_RUNS.
  replace (0 + Z.of_nat n + 1) with (Z.of_nat (S n)) by lia.
  replace (0 + accepted predicate (take n vs) + _)
    with (accepted predicate (take (S n) vs))
    by (rewrite (accepted_take_S _ _ _ Hv); lia).
  do 3 f_equal.
  assert (Hpos : 0 < Z.of_nat (S n)) by lia.
  pose proof (GuardFacts.ratio_below_floor
                (accepted predicate (take (S n) vs)) _ Hpos) as Hr.
  destruct (Js.ltb _ _); destruct (Z.ltb_spec
    (100 * accepted predicate (take (S n) vs)) (Z.of_nat (S n)));
    try reflexivity; exfalso.
  - pose proof (proj1 Hr eq_refl). lia.
  - pose proof (proj2 Hr H). discriminate.
Qed.

(** X1. The guard does not latch.  At any call at which at least 1% of
    the calls so far (this one included) were accepted, the closure
    returns the raw predicate result, whether or not an earlier call
    threw. *)
Theorem guard_returns_at_or_above_floor (vs : list V) (n : nat) (v : V) :
  vs !! n = Some v →
  Z.of_nat (S n) ≤ 100 * accepted predicate (take (S n) vs) →
  run MIN_SUCCESS_RATE predicate path fresh vs !! n = Some (Ok (predicate v)).
Proof.
  intros Hv Hrate. rewrite (run_fresh_lookup _ _ _ Hv).
  replace (100 * accepted predicate (take (S n) vs) <? Z.of_nat (S n))
    with false by (symmetry; apply Z.ltb_ge; lia).
  rewrite andb_false_r. reflexivity.
Qed.

(** X2. A predicate that rejects every value: each of the first 1000
    calls returns [false], and every later call throws the generation
    error. *)
Theorem guard_rejecting_predicate (vs : list V) (n : nat) (v : V) :
  (∀ w, In w vs → predicate w = false) →
  vs !! n = Some v →
  run MIN_SUCCESS_RATE predicate path fresh vs !! n
  = Some (if (n <? 1000)%nat then Ok false else Throw (error path)).
Proof.
  intros Hrej Hv. rewrite (run_fresh_lookup _ _ _ Hv).
  assert (Hacc : accepted predicate (take (S n) vs) = 0).
  { unfold accepted.
    assert (H : ∀ l, (∀ w, In w l → predicate w = false) →
                     List.filter predicate l = []).
    { induction l as [|w l IH]; intros Hl; simpl; [reflexivity|].
      rewrite (Hl w (or_introl eq_refl)). apply IH.
      intros w' Hw'. apply Hl. right. exact Hw'. }
    rewrite H; [reflexivity|].
    intros w Hw. apply Hrej.
    apply list_elem_of_In. apply list_elem_of_In in Hw.
    apply list_elem_of_lookup in Hw as [i Hi].
    apply lookup_take_Some in Hi.
    eapply list_elem_of_lookup_2. exact (proj1 Hi). }
  rewrite Hacc.
  rewrite (Hrej v) by (apply list_elem_of_In;
                        eapply list_elem_of_lookup_2; exact Hv).
  destruct (Nat.ltb_spec n 1000).
  - replace (1000 <? Z.of_nat (S n)) with false
      by (symmetry; apply Z.ltb_ge; lia). reflexivity.
  - replace (1000 <? Z.of_nat (S n)) with true
      by (symmetry; apply Z.ltb_lt; lia).
    replace (100 * 0 <? Z.of_nat (S n)) with true
      by (symmetry; apply Z.ltb_lt; lia). reflexivity.
Qed.

End Closure.

(** Ten accepted values, 991 rejected ones, then an accepted one: call
    1001 throws (10 of 1001 is below 1%), call 1002 returns [true] (11 of
    1002 is not). *)
Lemma guard_returns_at_or_above_floor_witness :
  let vs := replicate 10 1 ++ replicate 991 0 ++ [1] in
  run MIN_SUCCESS_RATE (Z.eqb 1) ".n" fresh vs !! 1000%nat
  = Some (Throw (error ".n"))
  ∧ run MIN_SUCCESS_RATE (Z.eqb 1) ".n" fresh vs !! 1001%nat
    = Some (Ok true).
Proof.
  intros vs. split.
  - vm_compute. reflexivity.
  - apply (guard_returns_at_or_above_floor (Z.eqb 1) ".n" vs 1001 1).
    + vm_compute. reflexivity.
    + vm_compute. discriminate.
Defined.

Lemma guard_rejecting_predicate_witness :
  run MIN_SUCCESS_RATE (fun _ : Z => false) ".n" fresh (replicate 1200 0)
    !! 999%nat = Some (Ok false)
  ∧ run MIN_SUCCESS_RATE (fun _ : Z => false) ".n" fresh (replicate 1200 0)
      !! 1100%nat = Some (Throw (error ".n")).
Proof.
  split.
  - apply (guard_rejecting_predicate (fun _ : Z => false) ".n"
             (replicate 1200 0) 999 0); [reflexivity | vm_compute; reflexivity].
  - apply (guard_rejecting_predicate (fun _ : Z => false) ".n"
             (replicate 1200 0) 1100 0); [reflexivity | vm_compute; reflexivity].
Defined.

End GuardMore.

(** ** Unsupported nodes and nested errors *)

Module TraversalMore.

Lemma substring_all (s : string) : String.substring 0 (String.length s) s = s.
Proof. induction s as [|c s IH]; simpl; [reflexivity | rewrite IH; reflexivity]. Qed.

Lemma unsupported_name_Zod id name d :
  unsupported_name (Node id ("Zod" +:+ name) d) = name.
Proof.
  unfold unsupported_name, constructor_name.
  change ("Zod" +:+ name)
    with (String "Z"%char (String "o"%char (String "d"%char name))).
  simpl. replace (String.prefix EmptyString name) with true
    by (destruct name; reflexivity).
  rewrite ?Nat.sub_0_r. apply substring_all.
Qed.

Lemma inputWithPath_unsupported overrides fuel schema path :
  overrides !! node_id schema = None →
  isFirstPartyType schema = false →
  inputWithPath overrides (S fuel) schema path
  = unsupported (unsupported_name schema) path.
Proof.
  intros Hov Hfp. simpl. unfold findOverride. rewrite Hov, Hfp. reflexivity.
Qed.

(** X3. A node without an override entry whose tag is missing, empty or
    not a key of the builder table cannot be compiled: whatever the fuel,
    the compiler throws the unsupported-schema error, which names the
    constructor without its [Zod] prefix and the path, the root path being
    shown as a dot. *)
Theorem unsupported_schema_error
    (overrides : Overrides) (fuel : nat) (id : positive) (name path : string)
    (tag : option string) :
  overrides !! id = None →
  isFirstPartyType (Node id ("Zod" +:+ name) (TForeign tag)) = false →
  inputWithPath overrides (S fuel) (Node id ("Zod" +:+ name) (TForeign tag)) path
  = Throw (ZodFastCheckUnsupportedSchemaError
      [Text ("Unable to generate valid values for Zod schema. " +:+
             "'" +:+ name +:+ "' schemas are not supported (at path '" +:+
             (if String.eqb path EmptyString then "." else path) +:+ "').")]).
Proof.
  intros Hov Hfp.
  rewrite inputWithPath_unsupported by assumption.
  rewrite unsupported_name_Zod. reflexivity.
Qed.

(** An intersection node at the root and a lazy node under [.next]. *)
Lemma unsupported_schema_error_witness :
  inputWithPath ∅ 1 (Node 1 "ZodIntersection" (TForeign (Some "intersection")))
    EmptyString
  = Throw (ZodFastCheckUnsupportedSchemaError
      [Text "Unable to generate valid values for Zod schema. 'Intersection' schemas are not supported (at path '.')."])
  ∧ inputWithPath ∅ 1 (Node 1 "ZodLazy" (TForeign None)) ".next"
    = Throw (ZodFastCheckUnsupportedSchemaError
        [Text "Unable to generate valid values for Zod schema. 'Lazy' schemas are not supported (at path '.next')."]).
Proof.
  split.
  - apply (unsupported_schema_error ∅ 0 1 "Intersection" EmptyString
             (Some "intersection")); reflexivity.
  - apply (unsupported_schema_error ∅ 0 1 "Lazy" ".next" None); reflexivity.
Defined.

Lemma traverse_Ok {A B : Type} (f : A → Result B) (g : A → B) (l : list A) :
  Forall (fun a => f a = Ok (g a)) l → traverse f l = Ok (map g l).
Proof.
  induction 1 as [|a l Ha _ IH]; simpl; [reflexivity|].
  rewrite Ha. simpl. rewrite IH. reflexivity.
Qed.

Lemma traverse_first_Throw {A B : Type} (f : A → Result B) (pre post : list A)
    (a : A) (e : Error) :
  Forall (fun x => ∃ b, f x = Ok b) pre →
  f a = Throw e →
  traverse f (pre ++ a :: post) = Throw e.
Proof.
  intros Hpre Ha. induction Hpre as [|x pre [b Hx] _ IH]; simpl.
  - rewrite Ha. reflexivity.
  - rewrite Hx. simpl. rewrite IH. reflexivity.
Qed.

(** X4. An object node without an override entry is compiled property by
    property, in the order of the shape, each under the path extended
    with a dot and the property name.  When every property compiles, the
    result is the record generator of the property generators in that
    order; otherwise the error of the first property that fails is the
    error of the object, and the properties after it are not looked at. *)
Theorem object_properties_in_order
    (overrides : Overrides) (fuel : nat) (id : positive) (ctor path : string) :
  overrides !! id = None →
  (∀ (shape : list (string * Schema)) (arbs : string * Schema → Arbitrary),
     Forall (fun p => inputWithPath overrides fuel (snd p)
                        (path +:+ "." +:+ fst p) = Ok (arbs p)) shape →
     inputWithPath overrides (S fuel) (Node id ctor (TObject shape)) path
     = Ok (fc_record (map (fun p => (fst p, arbs p)) shape)))
  ∧ (∀ (pre post : list (string * Schema)) (property : string)
       (propSchema : Schema) (e : Error),
       Forall (fun p => ∃ arb, inputWithPath overrides fuel (snd p)
                                 (path +:+ "." +:+ fst p) = Ok arb) pre →
       inputWithPath overrides fuel propSchema (path +:+ "." +:+ property)
       = Throw e →
       inputWithPath overrides (S fuel)
         (Node id ctor (TObject (pre ++ (property, propSchema) :: post))) path
       = Throw e).
Proof.
  intros Hov. split.
  - intros shape arbs Hall.
    apply CompilerFacts.inputWithPath_builder; [exact Hov | reflexivity |].
    unfold arbitraryBuilders, def. f_equal.
    rewrite (traverse_Ok _ (fun p => (fst p, arbs p))); [reflexivity|].
    eapply Forall_impl; [exact Hall|].
    intros [property propSchema] H; simpl in *. rewrite H. reflexivity.
  - intros pre post property propSchema e Hpre Hbad.
    apply CompilerFacts.inputWithPath_builder; [exact Hov | reflexivity |].
    unfold arbitraryBuilders, def. f_equal.
    rewrite (traverse_first_Throw _ pre post (property, propSchema) e);
      [reflexivity | | rewrite Hbad; reflexivity].
    eapply Forall_impl; [exact Hpre|].
    intros [p s] [arb H]; simpl in *. rewrite H. eexists. reflexivity.
Qed.

(** [z.object({ ok: z.boolean(), bad: z.never(), worse: z.never() })] *)
Lemma object_properties_in_order_witness :
  inputWithPath ∅ 2
    (Node 1 "ZodObject"
       (TObject [("ok", Node 2 "ZodBoolean" TBoolean);
                 ("bad", Node 3 "ZodNever" TNever);
                 ("worse", Node 4 "ZodNever" TNever)])) ".user"
  = Throw (ZodFastCheckUnsupportedSchemaError
      [Text "Unable to generate valid values for Zod schema. 'Never' schemas are not supported (at path '.user.bad')."]).
Proof.
  refine (proj2 (object_properties_in_order ∅ 1 1 "ZodObject" ".user" _)
            [("ok", Node 2 "ZodBoolean" TBoolean)]
            [("worse", Node 4 "ZodNever" TNever)]
            "bad" (Node 3 "ZodNever" TNever) _ _ _).
  - reflexivity.
  - repeat constructor. eexists. reflexivity.
  - reflexivity.
Defined.

End TraversalMore.

(** ** Division by a factor and the order of numbers *)

Module FactorFacts.

Lemma sgn_pos f : (0 < f)%Q → Js.sgn f = Gt.
Proof.
  destruct f as [n d]. unfold Qlt, Js.sgn; simpl. intros H.
  apply Z.compare_gt_iff. lia.
Qed.

Lemma sgn_neg f : (f < 0)%Q → Js.sgn f = Lt.
Proof.
  destruct f as [n d]. unfold Qlt, Js.sgn; simpl. intros H.
  apply Z.compare_lt_iff. lia.
Qed.

Lemma Qdiv_le_mult a f z : (0 < f)%Q → (a / f <= z)%Q → (a <= z * f)%Q.
Proof.
  intros Hf H.
  assert (E : (a == (a / f) * f)%Q)
    by (field; intros E; rewrite E in Hf; discriminate).
  rewrite E. apply Qmult_le_compat_r; [exact H | apply Qlt_le_weak, Hf].
Qed.

Lemma Qdiv_ge_mult a f z : (0 < f)%Q → (z <= a / f)%Q → (z * f <= a)%Q.
Proof.
  intros Hf H.
  assert (E : (a == (a / f) * f)%Q)
    by (field; intros E; rewrite E in Hf; discriminate).
  rewrite E. apply Qmult_le_compat_r; [exact H | apply Qlt_le_weak, Hf].
Qed.

Lemma Qdiv_neg_lt a b f : (f < 0)%Q → (a < b)%Q → (b / f < a / f)%Q.
Proof.
  intros Hf Hab. unfold Qdiv.
  assert (Hi : (/ f < 0)%Q).
  { destruct f as [[|n|n] d]; unfold Qlt in *; simpl in *; lia. }
  nra.
Qed.

(** An integer at or above [ceil(m / f)], times a positive [f], is at or
    above [m]. *)
Lemma ceil_div_le m f z :
  (0 < f)%Q →
  Js.leb (Js.Math_ceil (Js.div m (Js.Fin f))) (Js.of_Z z) = true →
  Js.leb m (Js.mul (Js.of_Z z) (Js.Fin f)) = true.
Proof.
  intros Hf. pose proof (sgn_pos f Hf) as Hs.
  destruct m as [a| | |];
    [|simpl; rewrite ?Hs; simpl; try discriminate; reflexivity..].
  unfold Js.div; rewrite Hs.
  unfold Js.Math_ceil, Js.of_Z, Js.mul, Js.leb.
  rewrite !Qle_bool_iff. intros H.
  apply Qdiv_le_mult; [exact Hf|].
  eapply Qle_trans; [apply Qle_ceiling | exact H].
Qed.

(** An integer at or below [floor(m / f)], times a positive [f], is at or
    below [m]. *)
Lemma floor_div_ge m f z :
  (0 < f)%Q →
  Js.leb (Js.of_Z z) (Js.Math_floor (Js.div m (Js.Fin f))) = true →
  Js.leb (Js.mul (Js.of_Z z) (Js.Fin f)) m = true.
Proof.
  intros Hf. pose proof (sgn_pos f Hf) as Hs.
  destruct m as [a| | |];
    [|simpl; rewrite ?Hs; simpl; try discriminate; reflexivity..].
  unfold Js.div; rewrite Hs.
  unfold Js.Math_floor, Js.of_Z, Js.mul, Js.leb.
  rewrite !Qle_bool_iff. intros H.
  apply Qdiv_ge_mult; [exact Hf|].
  eapply Qle_trans; [exact H | apply Qfloor_le].
Qed.

(** Dividing by a negative factor swaps the bounds. *)
Lemma neg_factor_inverted a b f :
  (f < 0)%Q → (a < b)%Q →
  Js.gtb (Js.Math_ceil (Js.div (Js.Fin a) (Js.Fin f)))
         (Js.Math_floor (Js.div (Js.Fin b) (Js.Fin f))) = true.
Proof.
  intros Hf Hab. pose proof (sgn_neg f Hf) as Hs.
  unfold Js.gtb, Js.div. rewrite Hs.
  unfold Js.Math_ceil, Js.Math_floor, Js.of_Z, Js.ltb.
  apply JsFacts.Qltb_iff.
  eapply Qle_lt_trans; [apply Qfloor_le|].
  eapply Qlt_le_trans; [apply (Qdiv_neg_lt _ _ _ Hf Hab) | apply Qle_ceiling].
Qed.

(** A finite number at or above [b + 0.001] is above [b], and one at or
    below [b - 0.001] is below [b]. *)
Lemma above_offset b q :
  Js.leb (Js.add b NumberBuilder.milli) (Js.Fin q) = true →
  Js.ltb b (Js.Fin q) = true.
Proof.
  destruct b as [x| | |]; simpl; try discriminate; try reflexivity.
  rewrite Qle_bool_iff, JsFacts.Qltb_iff. intros H.
  eapply Qlt_le_trans; [|exact H].
  rewrite <- (Qplus_0_r x) at 1. apply Qplus_lt_r. reflexivity.
Qed.

Lemma below_offset b q :
  Js.leb (Js.Fin q) (Js.sub b NumberBuilder.milli) = true →
  Js.ltb (Js.Fin q) b = true.
Proof.
  destruct b as [x| | |]; simpl; try discriminate; try reflexivity.
  rewrite Qle_bool_iff, JsFacts.Qltb_iff. intros H.
  eapply Qle_lt_trans; [exact H|].
  rewrite <- (Qplus_0_r x) at 2. apply Qplus_lt_r. reflexivity.
Qed.

End FactorFacts.

(** ** Numbers within their declared bounds *)

Module NumberMore.
Import NumberBuilder.

Lemma min_step_mono l c x :
  Js.leb (min (step l c)) x = true → Js.leb (min l) x = true.
Proof.
  destruct c; simpl; try (intros H; exact H).
  - intros H. apply (JsFacts.leb_Math_max _ _ _ H).
  - destruct (_ || _); intros H; exact H.
Qed.

Lemma min_fold_mono checks l x :
  Js.leb (min (fold_left step checks l)) x = true → Js.leb (min l) x = true.
Proof.
  revert l; induction checks as [|c checks IH]; intros l H; simpl in *.
  - exact H.
  - eapply min_step_mono, IH, H.
Qed.

Lemma min_fold_bound checks l value inclusive x :
  In (greater_than value inclusive) checks →
  Js.leb (min (fold_left step checks l)) x = true →
  Js.leb (closed_lower value inclusive) x = true.
Proof.
  revert l; induction checks as [|c checks IH]; intros l Hin H; simpl in *.
  - contradiction.
  - destruct Hin as [->|Hin]; [|eapply IH; eassumption].
    apply min_fold_mono in H. simpl in H.
    apply (JsFacts.leb_Math_max _ _ _ H).
Qed.

Lemma max_step_Some l c m :
  max l = Some m →
  ∃ m', max (step l c) = Some m'
        ∧ ∀ x, Js.leb x m' = true → Js.leb x m = true.
Proof.
  intros Hm. destruct c; simpl; rewrite ?Hm; eauto.
  - eexists. split; [reflexivity|].
    intros x H. apply (JsFacts.leb_Math_min _ _ _ H).
  - destruct (_ || _); simpl; eauto.
Qed.

Lemma max_fold_Some checks l m :
  max l = Some m →
  ∃ m', max (fold_left step checks l) = Some m'
        ∧ ∀ x, Js.leb x m' = true → Js.leb x m = true.
Proof.
  revert l m; induction checks as [|c checks IH]; intros l m Hm; simpl.
  - eauto.
  - destruct (max_step_Some l c m Hm) as (m1 & H1 & Hle1).
    destruct (IH _ _ H1) as (m2 & H2 & Hle2).
    exists m2. split; [exact H2|]. intros x Hx. apply Hle1, Hle2, Hx.
Qed.

Lemma max_fold_bound checks l value inclusive :
  In (less_than value inclusive) checks →
  ∃ m', max (fold_left step checks l) = Some m'
        ∧ ∀ x, Js.leb x m' = true →
               Js.leb x (closed_upper value inclusive) = true.
Proof.
  revert l; induction checks as [|c checks IH]; intros l Hin; simpl in *.
  - contradiction.
  - destruct Hin as [->|Hin]; [|apply IH, Hin].
    destruct (max_fold_Some checks (step l (less_than value inclusive)) _
                eq_refl) as (m' & Hm' & Hle).
    exists m'. split; [exact Hm'|]. intros x Hx. apply Hle in Hx.
    unfold closed_upper. destruct (max l); [|exact Hx].
    apply (JsFacts.leb_Math_min _ _ _ Hx).
Qed.

Lemma min_clamp_mono l x :
  Js.leb (min (clamp l)) x = true → Js.leb (min l) x = true.
Proof.
  unfold clamp. destruct (hasSafeIntFormat l); simpl; [|tauto].
  intros H. apply (JsFacts.leb_Math_max _ _ _ H).
Qed.

Lemma max_clamp_Some l m :
  max l = Some m →
  ∃ m', max (clamp l) = Some m'
        ∧ ∀ x, Js.leb x m' = true → Js.leb x m = true.
Proof.
  intros Hm. unfold clamp. destruct (hasSafeIntFormat l); simpl; rewrite Hm.
  - eexists. split; [reflexivity|].
    intros x H. apply (JsFacts.leb_Math_min _ _ _ H).
  - eauto.
Qed.

Lemma clamp_safe l :
  hasSafeIntFormat (clamp l) = true →
  (∀ x, Js.leb (min (clamp l)) x = true →
        Js.leb Js.Number_MIN_SAFE_INTEGER x = true)
  ∧ ∃ m, max (clamp l) = Some m
         ∧ ∀ x, Js.leb x m = true →
                Js.leb x Js.Number_MAX_SAFE_INTEGER = true.
Proof.
  unfold clamp. destruct (hasSafeIntFormat l) eqn:E; simpl;
    [intros _ | congruence].
  split.
  - intros x H. apply (JsFacts.leb_Math_max _ _ _ H).
  - eexists. split; [reflexivity|]. intros x H.
    destruct (max l); [apply (JsFacts.leb_Math_min _ _ _ H) | exact H].
Qed.

(** A finite number between the resolved bounds passes every bound check
    of the list. *)
Lemma resolved_bounds_sound checks q :
  let l := clamp (loop checks) in
  Js.leb (min l) (Js.Fin q) = true →
  (∀ m, max l = Some m → Js.leb (Js.Fin q) m = true) →
  Forall (fun c => satisfies_bound c (Js.Fin q)) checks.
Proof.
  intros l Hmin Hmax. apply Forall_forall. intros c Hc.
  apply list_elem_of_In in Hc.
  destruct c; simpl; try exact I.
  - apply min_clamp_mono in Hmin.
    pose proof (min_fold_bound _ _ _ _ _ Hc Hmin) as H.
    unfold closed_lower in H. destruct inclusive; [exact H|].
    apply FactorFacts.above_offset, H.
  - destruct (max_fold_bound checks initial _ _ Hc) as (m1 & H1 & Hle1).
    destruct (max_clamp_Some _ _ H1) as (m2 & H2 & Hle2).
    pose proof (Hle1 _ (Hle2 _ (Hmax _ H2))) as H.
    unfold closed_upper in H. destruct inclusive; [exact H|].
    apply FactorFacts.below_offset, H.
Qed.

Lemma build_without_custom schema checks path :
  List.filter is_custom checks = [] →
  build schema (Some checks) path = base (clamp (loop checks)) path.
Proof.
  intros Hc. unfold build.
  rewrite RefinementFacts.customChecks_loop, Hc.
  destruct (base _ _); reflexivity.
Qed.









End NumberMore.

(** ** What the refinement detector returns *)

Module SmartMore.

Lemma detect_modulo_3 fn tests d :
  Smart.detect_modulo fn tests = Some d →
  d = Js.of_Z 3 ∧ Smart.rejects_non_multiples fn = true.
Proof.
  induction tests as [|t tests IH]; simpl; [discriminate|].
  destruct (_ && _); [|exact IH].
  destruct (Smart.rejects_non_multiples fn); [|exact IH].
  intros [= <-]. split; reflexivity.
Qed.

Lemma detect_equality_Some fn tests min max arb :
  Smart.detect_equality fn tests min max = Some arb →
  ∃ c, In c tests
       ∧ arb = fc_constant (Js.VNum (Js.of_Z c))
       ∧ Js.is_true (fn (Js.of_Z c)) = true
       ∧ Js.leb min (Js.of_Z c) = true
       ∧ Js.leb (Js.of_Z c) max = true.
Proof.
  induction tests as [|t tests IH]; simpl; [discriminate|].
  destruct (Js.is_true _ && _ && _) eqn:E.
  - intros [= <-]. exists t.
    apply andb_true_iff in E as [E Hr]. apply andb_true_iff in E as [Ht _].
    apply andb_true_iff in Hr as [Hlo Hhi].
    repeat split; auto.
  - intros H. destruct (IH H) as (c & Hc & Hrest).
    exists c. split; [right; exact Hc | exact Hrest].
Qed.



Lemma detect_modulo_ext fn fn' tests :
  (∀ t, In t (tests ++ [1; 2; 4]) → fn (Js.of_Z t) = fn' (Js.of_Z t)) →
  Smart.detect_modulo fn tests = Smart.detect_modulo fn' tests.
Proof.
  intros H.
  assert (Hrej : Smart.rejects_non_multiples fn
                 = Smart.rejects_non_multiples fn').
  { unfold Smart.rejects_non_multiples.
    rewrite !H by (apply in_or_app; right; simpl; tauto). reflexivity. }
  induction tests as [|t tests IH]; simpl; [reflexivity|].
  rewrite (H t) by (left; reflexivity). rewrite Hrej.
  rewrite IH; [reflexivity|].
  intros u Hu. apply H. right. exact Hu.
Qed.

Lemma detect_equality_ext fn fn' tests min max :
  (∀ t, In t (flat_map (fun testVal => [testVal; testVal - 1; testVal + 1])
                tests) → fn (Js.of_Z t) = fn' (Js.of_Z t)) →
  Smart.detect_equality fn tests min max
  = Smart.detect_equality fn' tests min max.
Proof.
  induction tests as [|t tests IH]; intros H; simpl; [reflexivity|].
  rewrite !H by (simpl; tauto).
  rewrite IH; [reflexivity|].
  intros u Hu. apply H. simpl. tauto.
Qed.

(** X9. The detector sees a refinement only through the probes: two
    refinements that return the same results on the 27 probe arguments
    get the same answer for every range, whatever they do on other
    numbers.  A generator it returns may therefore produce numbers the
    refinement rejects. *)
Theorem smart_generator_depends_on_probes_only
    (fn fn' : number → value) (min max : number) :
  (∀ t, In t smart_probes → fn (Js.of_Z t) = fn' (Js.of_Z t)) →
  Smart.tryGenerateSmartlyForRefinement (custom (Some fn)) min max
  = Smart.tryGenerateSmartlyForRefinement (custom (Some fn')) min max.
Proof.
  intros H. unfold Smart.tryGenerateSmartlyForRefinement.
  rewrite (detect_modulo_ext fn fn'), (detect_equality_ext fn fn');
    [reflexivity | |].
  - intros t Ht. apply H. unfold smart_probes.
    apply in_or_app. right. apply in_or_app. right. exact Ht.
  - intros t Ht. apply H. unfold smart_probes.
    rewrite app_assoc. apply in_or_app. left. exact Ht.
Qed.

(** [x => x === 0] and the refinement that accepts 0 and the multiples of
    three beyond the probes agree on the probes; with the default bounds
    both get three times an integer, which produces 3, a number
    [x => x === 0] rejects. *)
Lemma smart_generator_depends_on_probes_only_witness :
  let fn' := fun x =>
    Js.VBool (Js.is_true (equals_0 x)
              || (Js.is_true (divisible_by_3 x)
                  && (Js.ltb (Js.of_Z 1000) x || Js.ltb x (Js.of_Z (-1000))))) in
  let arb := arb_map (times (Js.of_Z 3))
               (fc_integer (Js.of_Z (-333333)) (Js.of_Z 333333)) in
  Smart.tryGenerateSmartlyForRefinement (custom (Some equals_0))
    (Js.of_Z (-1000000)) (Js.of_Z 1000000) = Some arb
  ∧ Smart.tryGenerateSmartlyForRefinement (custom (Some fn'))
      (Js.of_Z (-1000000)) (Js.of_Z 1000000) = Some arb
  ∧ produces arb (Js.VNum (Js.mul (Js.of_Z 1) (Js.of_Z 3)))
  ∧ equals_0 (Js.mul (Js.of_Z 1) (Js.of_Z 3)) = Js.VBool false.
Proof.
  intros fn' arb.
  assert (H0 : Smart.tryGenerateSmartlyForRefinement (custom (Some equals_0))
                 (Js.of_Z (-1000000)) (Js.of_Z 1000000) = Some arb)
    by (vm_compute; reflexivity).
  split; [exact H0|]. split.
  - rewrite <- H0. symmetry.
    apply (smart_generator_depends_on_probes_only equals_0 fn').
    intros t Ht. unfold smart_probes in Ht. simpl in Ht.
    repeat (destruct Ht as [<-|Ht]; [vm_compute; reflexivity|]).
    contradiction.
  - split; [|reflexivity].
    apply produces_times. apply (produces_integer _ _ 1); reflexivity.
Defined.

End SmartMore.

(** ** Formats, affixes and unsupported checks of strings *)

Module StringMore.
Import StringBuilder.

(** The loop runs through checks it does not return on. *)
Lemma loop_through pre :
  Forall (fun c => is_terminal c = false) pre →
  ∀ l, ∃ l', ∀ rest, loop (pre ++ rest) l = loop rest l'.
Proof.
  induction 1 as [|c pre Hc _ IH]; intros l.
  - exists l. reflexivity.
  - destruct c; simpl in Hc |- *; try apply IH.
    destruct (String.eqb format "datetime"); [discriminate|].
    destruct (String.eqb format "url"); [discriminate|].
    destruct (String.eqb format "uuid"); [discriminate|].
    destruct (String.eqb format "cuid"); [discriminate|].
    destruct (String.eqb format "email"); [apply IH|].
    destruct (String.eqb format "starts_with"); [apply IH|].
    destruct (String.eqb format "ends_with"); apply IH.
Qed.

(** X10. The first datetime, url, uuid or cuid format check of a string
    schema decides the generator: the builder returns the generator of
    that format alone, and no length bound, affix, email format or
    unsupported check declared before or after it has any effect. *)
Theorem string_format_short_circuits
    (schema : Schema) (pre post : list Check) (path : string)
    (precision : option Z) (offset : bool) (prefix suffix : string) :
  Forall (fun c => is_terminal c = false) pre →
  build schema
    (Some (pre ++ string_format "datetime" precision offset prefix suffix
               :: post)) path
  = createDatetimeStringArb precision offset
  ∧ build schema
      (Some (pre ++ string_format "url" precision offset prefix suffix :: post))
      path = fc_webUrl
  ∧ build schema
      (Some (pre ++ string_format "uuid" precision offset prefix suffix :: post))
      path = fc_uuid
  ∧ build schema
      (Some (pre ++ string_format "cuid" precision offset prefix suffix :: post))
      path = createCuidArb.
Proof.
  intros Hpre. destruct (loop_through pre Hpre initial) as [l' Hl'].
  unfold build. rewrite !Hl'. repeat split; reflexivity.
Qed.

(** [z.string().min(40).email().uuid().max(3)] *)
Lemma string_format_short_circuits_witness :
  build (Node 1 "ZodString" (TString None))
    (Some [min_length (Js.of_Z 40);
           string_format "email" None false EmptyString EmptyString;
           string_format "uuid" None false EmptyString EmptyString;
           max_length (Js.of_Z 3)]) ".id"
  = fc_uuid.
Proof.
  apply (string_format_short_circuits (Node 1 "ZodString" (TString None))
           [min_length (Js.of_Z 40);
            string_format "email" None false EmptyString EmptyString]
           [max_length (Js.of_Z 3)] ".id" None false EmptyString EmptyString).
  repeat constructor.
Defined.

Lemma uses_filter_mappings ms arb :
  uses_filter (fold_left (fun arb mapping => arb_map mapping arb) ms arb)
  = uses_filter arb.
Proof.
  revert arb; induction ms as [|m ms IH]; intros arb; simpl; [reflexivity|].
  rewrite IH. reflexivity.
Qed.

Lemma loop_plain checks :
  Forall (fun c => is_plain c = true) checks →
  ∀ l, ∃ l', loop checks l = inl l'
             ∧ hasUnsupportedCheck l'
               = hasUnsupportedCheck l
                 || existsb (fun c => negb (is_handled c)) checks.
Proof.
  induction 1 as [|c checks Hc _ IH]; intros l.
  - exists l. split; [reflexivity|]. rewrite orb_false_r. reflexivity.
  - unfold is_plain in Hc.
    destruct c; simpl in Hc |- *;
      try (destruct (IH (Locals (minLength l) (maxLength l) true (mappings l)))
             as (l' & Hl' & Hu);
           exists l'; split; [exact Hl'|]; rewrite Hu; simpl;
           rewrite orb_true_r; reflexivity);
      try (edestruct IH as (l' & Hl' & Hu);
           exists l'; split; [exact Hl'|]; rewrite Hu; reflexivity).
    destruct (String.eqb format "datetime"); [discriminate|].
    destruct (String.eqb format "url"); [discriminate|].
    destruct (String.eqb format "uuid"); [discriminate|].
    destruct (String.eqb format "cuid"); [discriminate|].
    destruct (String.eqb format "email"); [discriminate|].
    destruct (String.eqb format "starts_with");
      [edestruct IH as (l' & Hl' & Hu);
       exists l'; split; [exact Hl'|]; rewrite Hu; reflexivity|].
    destruct (String.eqb format "ends_with");
      [edestruct IH as (l' & Hl' & Hu);
       exists l'; split; [exact Hl'|]; rewrite Hu; reflexivity|].
    destruct (IH (Locals (minLength l) (maxLength l) true (mappings l)))
      as (l' & Hl' & Hu).
    exists l'. split; [exact Hl'|]. rewrite Hu. simpl.
    rewrite orb_true_r. reflexivity.
Qed.

Lemma no_email_plain checks :
  Forall (fun c => is_plain c = true) checks → existsb is_email checks = false.
Proof.
  induction 1 as [|c checks Hc _ IH]; simpl; [reflexivity|].
  rewrite IH. unfold is_plain in Hc.
  apply andb_true_iff in Hc as [_ Hc]. apply negb_true_iff in Hc.
  rewrite Hc. reflexivity.
Qed.

(** X11. A string schema without a datetime, url, uuid, cuid or email
    format: the builder resorts to rejection sampling exactly when some
    check is one it has no case for, and then the filter is the
    success-rate guard over the schema's own validation at the path of
    the node; otherwise the generator has no filter at all. *)
Theorem string_filter_iff_unsupported
    (schema : Schema) (checks : list Check) (path : string) :
  Forall (fun c => is_plain c = true) checks →
  uses_filter (build schema (Some checks) path)
  = existsb (fun c => negb (is_handled c)) checks
  ∧ (existsb (fun c => negb (is_handled c)) checks = true →
     ∃ unfiltered,
       uses_filter unfiltered = false
       ∧ build schema (Some checks) path
         = arb_filter
             (throwIfSuccessRateBelow MIN_SUCCESS_RATE
                (safeParse_success schema) path) unfiltered).
Proof.
  intros Hplain.
  destruct (loop_plain checks Hplain initial) as (l & Hl & Hu).
  simpl in Hu. unfold build. rewrite Hl, (no_email_plain _ Hplain), Hu.
  destruct (existsb _ checks); simpl.
  - split; [reflexivity|]. intros _. eexists. split; [|reflexivity].
    apply uses_filter_mappings.
  - split; [apply uses_filter_mappings | discriminate].
Qed.

(** [z.string().min(2).regex(/x/)]: the regex format has no case. *)
Lemma string_filter_iff_unsupported_witness :
  let schema := Node 1 "ZodString" (TString None) in
  uses_filter
    (build schema
       (Some [min_length (Js.of_Z 2);
              string_format "regex" None false EmptyString EmptyString])
       ".code")
  = true
  ∧ uses_filter
      (build schema (Some [min_length (Js.of_Z 2); trim]) ".code") = false.
Proof.
  intros schema. split.
  - rewrite (proj1 (string_filter_iff_unsupported schema
                      [min_length (Js.of_Z 2);
                       string_format "regex" None false EmptyString EmptyString]
                      ".code" ltac:(repeat constructor))). reflexivity.
  - rewrite (proj1 (string_filter_iff_unsupported schema
                      [min_length (Js.of_Z 2); trim] ".code"
                      ltac:(repeat constructor))). reflexivity.
Defined.

Lemma length_append (s1 s2 : string) :
  String.length (s1 +:+ s2) = (String.length s1 + String.length s2)%nat.
Proof.
  induction s1 as [|c s1 IH]; simpl; [reflexivity | rewrite IH; reflexivity].
Qed.

Lemma length_with_affixes ms core :
  String.length (fold_left with_affix ms core)
  = (String.length core + sum_list (affix_length <$> ms))%nat.
Proof.
  revert core; induction ms as [|m ms IH]; intros core;
    [simpl; lia|].
  rewrite fmap_cons. simpl. rewrite IH.
  destruct m; simpl; rewrite ?length_append; lia.
Qed.

Lemma affix_of_prepend_or_append c m :
  affix_of c = Some m → (∃ p, m = prepend p) ∨ (∃ s, m = append s).
Proof.
  destruct c; simpl; try discriminate.
  destruct (String.eqb format "starts_with"); [intros [= <-]; eauto|].
  destruct (String.eqb format "ends_with"); [intros [= <-]; eauto|].
  discriminate.
Qed.

(** A value of a generator under a chain of affix mappings is a value of
    the generator with the affixes put around it. *)
Lemma produces_mappings ms :
  Forall (fun m => (∃ p, m = prepend p) ∨ (∃ s, m = append s)) ms →
  ∀ base v,
    (∀ w, produces base w → ∃ s, w = Js.VStr s) →
    produces (fold_left (fun arb mapping => arb_map mapping arb) ms base) v →
    ∃ core, produces base (Js.VStr core)
            ∧ v = Js.VStr (fold_left with_affix ms core).
Proof.
  induction 1 as [|m ms Hm _ IH]; intros base v Hbase Hv; simpl in *.
  - destruct (Hbase _ Hv) as [s ->]. eauto.
  - destruct (IH (arb_map m base) v) as (inner & Hp & ->); [|exact Hv|].
    + intros w Hw. destruct Hm as [[p ->]|[s ->]]; inversion Hw; eauto.
    + destruct Hm as [[p ->]|[s ->]]; inversion Hp; subst; eauto.
Qed.

Lemma loop_length_or_affix checks :
  Forall is_length_or_affix checks →
  ∀ l, loop checks l =
       inl (Locals
              (fold_left Js.Math_max (minimums checks) (minLength l))
              (fold_left (fun acc m => Some (Js.Math_min (default Js.PosInf acc) m))
                         (maximums checks) (maxLength l))
              (hasUnsupportedCheck l)
              (mappings l ++ omap affix_of checks)).
Proof.
  induction 1 as [|c checks Hc _ IH]; intros l.
  - destruct l; simpl. rewrite app_nil_r. reflexivity.
  - destruct c; simpl in Hc; try (destruct Hc; discriminate);
      try (simpl; rewrite IH; reflexivity).
    destruct Hc as [m Hm]. simpl in Hm |- *.
    destruct (String.eqb format "starts_with") eqn:Es.
    { apply String.eqb_eq in Es. subst format. simpl.
      rewrite IH. simpl. rewrite <- app_assoc. reflexivity. }
    destruct (String.eqb format "ends_with") eqn:Ee; [|discriminate].
    apply String.eqb_eq in Ee. subst format. simpl.
    rewrite IH. simpl. rewrite <- app_assoc. reflexivity.
Qed.

Lemma plain_length_or_affix checks :
  Forall is_length_or_affix checks → existsb is_email checks = false.
Proof.
  induction 1 as [|c checks Hc _ IH]; simpl; [reflexivity|].
  rewrite IH, orb_false_r.
  destruct c; simpl in Hc |- *; try reflexivity.
  destruct Hc as [m Hm]. simpl in Hm.
  destruct (String.eqb format "starts_with") eqn:Es;
    [apply String.eqb_eq in Es; subst; reflexivity|].
  destruct (String.eqb format "ends_with") eqn:Ee; [|discriminate].
  apply String.eqb_eq in Ee; subst; reflexivity.
Qed.

(** X12. A string schema with length bounds and [starts_with] and
    [ends_with] checks only: every generated string is a core string,
    whose length is within the resolved bounds, with the declared affixes
    put around it one after the other, so its own length is that of the
    core plus those of all affixes; the length bounds do not account for
    the affixes. *)
Theorem string_affixes_around_core
    (schema : Schema) (checks : list Check) (path : string) :
  Forall is_length_or_affix checks →
  ∀ v, produces (build schema (Some checks) path) v →
    ∃ core,
      v = Js.VStr (fold_left with_affix (omap affix_of checks) core)
      ∧ Js.leb (resolved_min checks)
               (Js.of_Z (Z.of_nat (String.length core))) = true
      ∧ Js.leb (Js.of_Z (Z.of_nat (String.length core)))
               (resolved_max checks) = true
      ∧ String.length (fold_left with_affix (omap affix_of checks) core)
        = (String.length core
           + sum_list (affix_length <$> omap affix_of checks))%nat.
Proof.
  intros Hc v Hv.
  unfold build in Hv.
  rewrite (loop_length_or_affix _ Hc), (plain_length_or_affix _ Hc) in Hv.
  simpl in Hv.
  apply produces_mappings in Hv.
  - destruct Hv as (core & Hcore & ->). exists core.
    split; [reflexivity|].
    inversion Hcore as [| | |lo hi s Hlo Hhi| | |]; subst.
    split; [exact Hlo|]. split; [|apply length_with_affixes].
    unfold resolved_max, resolved_min.
    destruct (maximums checks) as [|m ms]; simpl in *; [exact Hhi|].
    rewrite StringFacts.fold_Math_min_Some in Hhi. exact Hhi.
  - apply Forall_forall. intros m Hm.
    apply list_elem_of_omap in Hm as (c & _ & Hm).
    eapply affix_of_prepend_or_append, Hm.
  - intros w Hw. inversion Hw; eauto.
Qed.

(** [z.string().max(3).startsWith("hello")] generates ["helloabc"], eight
    characters long. *)
Lemma string_affixes_around_core_witness :
  let checks := [max_length (Js.of_Z 3);
                 string_format "starts_with" None false "hello" EmptyString] in
  let schema := Node 1 "ZodString" (TString (Some checks)) in
  produces (build schema (Some checks) ".greeting") (Js.VStr "helloabc")
  ∧ ∃ core, "helloabc" = fold_left with_affix (omap affix_of checks) core
            ∧ String.length core = 3%nat.
Proof.
  intros checks schema.
  assert (Hp : produces (build schema (Some checks) ".greeting")
                 (Js.VStr "helloabc")).
  { apply (produces_prepend "hello" _ "abc").
    apply produces_string; reflexivity. }
  split; [exact Hp|].
  destruct (string_affixes_around_core schema checks ".greeting"
              ltac:(repeat constructor; simpl; eauto) _ Hp)
    as (core & Hv & _ & _ & Hlen).
  assert (E : "helloabc" = fold_left with_affix (omap affix_of checks) core)
    by congruence.
  exists core. split; [exact E|].
  rewrite <- E in Hlen. simpl in Hlen. lia.
Defined.


(** X19. A string schema with an email format check and no datetime,
    url, uuid or cuid format: the builder returns the email-address
    generator filtered by the email pattern and then by length (both
    bounds when a maximum was declared, the minimum alone otherwise);
    affixes and checks without a case are dropped, and the success-rate
    guard over the schema's validation is not applied. *)
Theorem string_email_filters_length_only
    (schema : Schema) (checks : list Check) (path : string) :
  Forall (fun c => is_terminal c = false) checks →
  existsb is_email checks = true →
  ∃ lengthFilter,
    build schema (Some checks) path
    = arb_filter lengthFilter
        (arb_filter matches_ZOD_EMAIL_REGEX fc_emailAddress)
    ∧ ((∃ minLength, lengthFilter = length_at_least minLength)
       ∨ (∃ minLength maxLen, lengthFilter = length_between minLength maxLen)).
Proof.
  intros Hterm Hemail.
  destruct (loop_through checks Hterm initial) as [l Hl].
  specialize (Hl []). rewrite app_nil_r in Hl.
  unfold build. rewrite Hl, Hemail. simpl.
  destruct (maxLength l); eexists; (split; [reflexivity|]); eauto.
Qed.

(** [z.string().email().max(30).refine(...)] *)
Lemma string_email_filters_length_only_witness :
  build (Node 1 "ZodString" (TString None))
    (Some [string_format "email" None false EmptyString EmptyString;
           max_length (Js.of_Z 30); custom None]) ".mail"
  = arb_filter (length_between (Js.of_Z 0) (Js.Math_min Js.PosInf (Js.of_Z 30)))
      (arb_filter matches_ZOD_EMAIL_REGEX fc_emailAddress).
Proof.
  destruct (string_email_filters_length_only (Node 1 "ZodString" (TString None))
              [string_format "email" None false EmptyString EmptyString;
               max_length (Js.of_Z 30); custom None] ".mail"
              ltac:(repeat constructor) eq_refl) as (f & Hb & _).
  rewrite Hb. vm_compute in Hb. injection Hb as <-. reflexivity.
Defined.


End StringMore.

(** ** Bounds of bigints, arrays and sets *)

Module BoundsMore.

Lemma big_min_step acc c :
  fst (BigintBuilder.step acc c)
  = match big_lower_of c, fst acc with
    | Some b, Some m => Some (Z.min b m)
    | Some b, None => Some b
    | None, m => m
    end.
Proof.
  destruct acc as [[m|] M], c; simpl; try reflexivity.
  f_equal. destruct (Z.ltb_spec (if inclusive then value else value + 1) m); lia.
Qed.

Lemma big_max_step acc c :
  snd (BigintBuilder.step acc c)
  = match big_upper_of c, snd acc with
    | Some b, Some m => Some (Z.max b m)
    | Some b, None => Some b
    | None, m => m
    end.
Proof.
  destruct acc as [m [M|]], c; simpl; try reflexivity.
  f_equal. destruct (Z.ltb_spec M (if inclusive then value else value - 1)); lia.
Qed.

Lemma big_min_fold checks acc :
  match fst (fold_left BigintBuilder.step checks acc) with
  | Some m =>
      (fst acc = Some m ∨ In m (omap big_lower_of checks))
      ∧ (∀ m0, fst acc = Some m0 → m ≤ m0)
      ∧ ∀ b, In b (omap big_lower_of checks) → m ≤ b
  | None => fst acc = None ∧ omap big_lower_of checks = []
  end.
Proof.
  revert acc; induction checks as [|c checks IH]; intros acc; simpl.
  - destruct (fst acc) as [m|]; [|auto].
    split; [auto|]. split; [intros m0 [= <-]; lia | tauto].
  - specialize (IH (BigintBuilder.step acc c)).
    rewrite big_min_step in IH.
    destruct (fst (fold_left _ checks _)) as [m|].
    + destruct IH as (Hin & Hle & Hall).
      destruct (big_lower_of c) as [b|], (fst acc) as [m0|]; simpl in *.
      * pose proof (Hle _ eq_refl).
        split; [|split; [intros ? [= <-]; lia | intros b' [<-|Hb']; [lia | auto]]].
        destruct Hin as [[= Hm]|Hin]; [|auto].
        destruct (Z.min_spec b m0) as [[_ E]|[_ E]]; rewrite E in Hm; subst; auto.
      * pose proof (Hle _ eq_refl).
        split; [|split; [discriminate | intros b' [<-|Hb']; [lia | auto]]].
        destruct Hin as [[= Hm]|Hin]; subst; auto.
      * split; [exact Hin | split; auto].
      * split; [exact Hin | split; auto].
    + destruct IH as [Hacc Hnil].
      destruct (big_lower_of c) as [b|], (fst acc) as [m0|]; simpl in *;
        try discriminate; auto.
Qed.

Lemma big_max_fold checks acc :
  match snd (fold_left BigintBuilder.step checks acc) with
  | Some m =>
      (snd acc = Some m ∨ In m (omap big_upper_of checks))
      ∧ (∀ m0, snd acc = Some m0 → m0 ≤ m)
      ∧ ∀ b, In b (omap big_upper_of checks) → b ≤ m
  | None => snd acc = None ∧ omap big_upper_of checks = []
  end.
Proof.
  revert acc; induction checks as [|c checks IH]; intros acc; simpl.
  - destruct (snd acc) as [m|]; [|auto].
    split; [auto|]. split; [intros m0 [= <-]; lia | tauto].
  - specialize (IH (BigintBuilder.step acc c)).
    rewrite big_max_step in IH.
    destruct (snd (fold_left _ checks _)) as [m|].
    + destruct IH as (Hin & Hle & Hall).
      destruct (big_upper_of c) as [b|], (snd acc) as [m0|]; simpl in *.
      * pose proof (Hle _ eq_refl).
        split; [|split; [intros ? [= <-]; lia | intros b' [<-|Hb']; [lia | auto]]].
        destruct Hin as [[= Hm]|Hin]; [|auto].
        destruct (Z.max_spec b m0) as [[_ E]|[_ E]]; rewrite E in Hm; subst; auto.
      * pose proof (Hle _ eq_refl).
        split; [|split; [discriminate | intros b' [<-|Hb']; [lia | auto]]].
        destruct Hin as [[= Hm]|Hin]; subst; auto.
      * split; [exact Hin | split; auto].
      * split; [exact Hin | split; auto].
    + destruct IH as [Hacc Hnil].
      destruct (big_upper_of c) as [b|], (snd acc) as [m0|]; simpl in *;
        try discriminate; auto.
Qed.

(** X13. The bigint builder keeps the loosest bounds.  An exclusive
    bound is closed by adding or subtracting 1; the generator's minimum
    is then the smallest of the declared lower bounds and its maximum the
    largest of the declared upper bounds (each absent when none is
    declared), and [multiple_of] and other checks change nothing. *)
Theorem bigint_bounds_are_loosest (checks : list BigIntCheck) :
  ∃ min max,
    BigintBuilder.build (Some checks) = fc_bigInt (Some (min, max))
    ∧ match min with
      | Some m => In m (omap big_lower_of checks)
                  ∧ ∀ b, In b (omap big_lower_of checks) → m ≤ b
      | None => omap big_lower_of checks = []
      end
    ∧ match max with
      | Some m => In m (omap big_upper_of checks)
                  ∧ ∀ b, In b (omap big_upper_of checks) → b ≤ m
      | None => omap big_upper_of checks = []
      end.
Proof.
  unfold BigintBuilder.build.
  pose proof (big_min_fold checks (None, None)) as Hmin.
  pose proof (big_max_fold checks (None, None)) as Hmax.
  destruct (fold_left BigintBuilder.step checks (None, None)) as [min max].
  exists min, max. split; [reflexivity|]. simpl in *. split.
  - destruct min as [m|]; [|tauto].
    destruct Hmin as ([?|?] & _ & ?); [discriminate | auto].
  - destruct max as [m|]; [|tauto].
    destruct Hmax as ([?|?] & _ & ?); [discriminate | auto].
Qed.

Lemma array_step_fst b c :
  fst (LengthBounds.array_step b c) = default (fst b) (array_min_of c).
Proof. destruct c; reflexivity. Qed.

Lemma array_step_snd b c :
  snd (LengthBounds.array_step b c)
  = match array_max_of c with Some n => Some n | None => snd b end.
Proof. destruct c; reflexivity. Qed.

Lemma set_step_fst b c :
  fst (LengthBounds.set_step b c) = default (fst b) (set_min_of c).
Proof. destruct c; reflexivity. Qed.

Lemma set_step_snd b c :
  snd (LengthBounds.set_step b c)
  = match set_max_of c with Some n => Some n | None => snd b end.
Proof. destruct c; reflexivity. Qed.

Lemma last_omap_cons {A B : Type} (f : A → option B) (a : A) (l : list A) :
  last (omap f (a :: l))
  = match last (omap f l) with Some y => Some y | None => f a end.
Proof.
  change (omap f (a :: l))
    with (match f a with Some y => y :: omap f l | None => omap f l end).
  destruct (f a) as [y|]; [|destruct (last _); reflexivity].
  destruct (omap f l) as [|x xs]; [reflexivity|].
  rewrite last_cons. destruct (last (x :: xs)); reflexivity.
Qed.

(** A fold whose steps overwrite keeps the last value written. *)
Lemma fold_last_wins {S : Type} (step : S → Check → S)
    (lo : S → number) (hi : S → option number)
    (lo_of hi_of : Check → option number) :
  (∀ s c, lo (step s c) = default (lo s) (lo_of c)) →
  (∀ s c, hi (step s c)
          = match hi_of c with Some n => Some n | None => hi s end) →
  ∀ checks s,
    lo (fold_left step checks s) = default (lo s) (last (omap lo_of checks))
    ∧ hi (fold_left step checks s)
      = match last (omap hi_of checks) with Some n => Some n | None => hi s end.
Proof.
  intros Hlo Hhi. induction checks as [|c checks IH]; intros s.
  - split; reflexivity.
  - destruct (IH (step s c)) as [IHlo IHhi].
    rewrite !last_omap_cons. simpl fold_left. rewrite IHlo, IHhi, Hlo, Hhi.
    split.
    + destruct (last (omap lo_of checks)); reflexivity.
    + destruct (last (omap hi_of checks)); [reflexivity|].
      destruct (hi_of c); reflexivity.
Qed.

(** X14. The array and the set builder keep, for each bound, the value
    of the last check of the list that sets it: the minimum is that of
    the last [min_length] or [length_equals] check ([min_size] or
    [size_equals] for a set) and 0 without any, the maximum that of the
    last [max_length] or [length_equals] check and absent without any;
    an array node without an override entry whose element compiles gets
    the array generator with exactly these bounds. *)
Theorem array_set_bounds_of_last_check (checks : list Check) :
  LengthBounds.array_loop (Some checks)
  = (default (Js.of_Z 0) (last (omap array_min_of checks)),
     last (omap array_max_of checks))
  ∧ LengthBounds.set_loop (Some checks)
    = (default (Js.of_Z 0) (last (omap set_min_of checks)),
       last (omap set_max_of checks))
  ∧ ∀ (overrides : Overrides) (fuel : nat) (id : positive)
      (ctor path : string) (element : Schema) (elt : Arbitrary),
      overrides !! id = None →
      inputWithPath overrides fuel element (path +:+ "[*]") = Ok elt →
      inputWithPath overrides (S fuel)
        (Node id ctor (TArray (Some checks) element)) path
      = Ok (fc_array elt
              (Some (default (Js.of_Z 0) (last (omap array_min_of checks)),
                     last (omap array_max_of checks)))).
Proof.
  assert (Ha : LengthBounds.array_loop (Some checks)
    = (default (Js.of_Z 0) (last (omap array_min_of checks)),
       last (omap array_max_of checks))).
  { unfold LengthBounds.array_loop.
    destruct (fold_last_wins LengthBounds.array_step fst snd
                array_min_of array_max_of array_step_fst array_step_snd
                checks LengthBounds.initial) as [H1 H2].
    destruct (fold_left _ _ _) as [lo hi]; simpl in *. rewrite H1, H2.
    destruct (last (omap array_max_of checks)); reflexivity. }
  split; [exact Ha|]. split.
  - unfold LengthBounds.set_loop.
    destruct (fold_last_wins LengthBounds.set_step fst snd
                set_min_of set_max_of set_step_fst set_step_snd
                checks LengthBounds.initial) as [H1 H2].
    destruct (fold_left _ _ _) as [lo hi]; simpl in *. rewrite H1, H2.
    destruct (last (omap set_max_of checks)); reflexivity.
  - intros overrides fuel id ctor path element elt Hov Helt.
    apply CompilerFacts.inputWithPath_builder; [exact Hov | reflexivity |].
    unfold arbitraryBuilders, def. rewrite Ha, Helt. reflexivity.
Qed.

(** [z.array(z.boolean()).length(4).min(1)] *)
Lemma array_set_bounds_of_last_check_witness :
  inputWithPath ∅ 2
    (Node 1 "ZodArray"
       (TArray (Some [length_equals (Js.of_Z 4); min_length (Js.of_Z 1)])
          (Node 2 "ZodBoolean" TBoolean))) ".flags"
  = Ok (fc_array fc_boolean (Some (Js.of_Z 1, Some (Js.of_Z 4)))).
Proof.
  apply (proj2 (proj2 (array_set_bounds_of_last_check
                         [length_equals (Js.of_Z 4); min_length (Js.of_Z 1)]))
           ∅ 1%nat 1%positive "ZodArray" ".flags" (Node 2 "ZodBoolean" TBoolean)
           fc_boolean); reflexivity.
Defined.

End BoundsMore.

(** ** Enum members *)

Module EnumMore.

Lemma filter_all {A : Type} (f : A → bool) (l : list A) :
  (∀ a, In a l → f a = true) → List.filter f l = l.
Proof.
  induction l as [|a l IH]; intros H; simpl; [reflexivity|].
  rewrite (H a (or_introl eq_refl)), IH; [reflexivity|].
  intros b Hb. apply H. right. exact Hb.
Qed.

Lemma filter_none {A : Type} (f : A → bool) (l : list A) :
  (∀ a, In a l → f a = false) → List.filter f l = [].
Proof.
  induction l as [|a l IH]; intros H; simpl; [reflexivity|].
  rewrite (H a (or_introl eq_refl)), IH; [reflexivity|].
  intros b Hb. apply H. right. exact Hb.
Qed.

Lemma property_In obj key v :
  property obj key = Some v → ∃ k, In (k, v) obj ∧ k = key.
Proof.
  unfold property. destruct (List.find _ obj) as [[k w]|] eqn:E; [|discriminate].
  simpl. intros [= <-]. apply List.find_some in E as [Hin Hk].
  simpl in Hk. apply String.eqb_eq in Hk. eauto.
Qed.

Lemma property_app_l obj1 obj2 key v :
  property obj1 key = Some v → property (obj1 ++ obj2) key = Some v.
Proof.
  unfold property. induction obj1 as [|e obj1 IH]; simpl; [discriminate|].
  destruct (String.eqb (fst e) key); [tauto | exact IH].
Qed.

Lemma property_app_r obj1 obj2 key :
  (∀ k v, In (k, v) obj1 → k ≠ key) →
  property (obj1 ++ obj2) key = property obj2 key.
Proof.
  unfold property. induction obj1 as [|[k v] obj1 IH]; intros H; simpl;
    [reflexivity|].
  destruct (String.eqb_spec k key) as [->|_].
  - exfalso. apply (H key v); [left|]; reflexivity.
  - apply IH. intros k' v' Hin. apply (H k' v'). right. exact Hin.
Qed.

Lemma property_is_Some obj key v :
  In (key, v) obj → ∃ w k, property obj key = Some w ∧ In (k, w) obj.
Proof.
  intros Hin. unfold property.
  destruct (List.find (fun e => String.eqb (fst e) key) obj) as [[k w]|] eqn:E.
  - apply List.find_some in E as [Hw _]. simpl. eauto.
  - exfalso. pose proof (List.find_none _ _ E _ Hin) as H. simpl in H.
    rewrite String.eqb_refl in H. discriminate.
Qed.

(** X15. An enum all of whose members are strings: every member is
    kept, in the order of the entries, and the builder offers each of
    them as a constant. *)
Theorem string_enum_keeps_every_member
    (recurse : SchemaToArbitrary) (id : positive) (ctor path : string)
    (entries : list (string * value)) :
  (∀ k v, In (k, v) entries → ∃ s, v = Js.VStr s) →
  getValidEnumValues entries = map snd entries
  ∧ arbitraryBuilders recurse (Node id ctor (TEnum entries)) path
    = Some (Ok (fc_oneof (map (fun e => fc_constant (snd e)) entries))).
Proof.
  intros Hstr.
  assert (H : getValidEnumValues entries = map snd entries).
  { unfold getValidEnumValues. rewrite filter_all; [reflexivity|].
    intros [k v] Hin. destruct (Hstr k v Hin) as [s ->]. simpl.
    destruct (property entries s) as [w|] eqn:E; [|reflexivity].
    apply property_In in E as (k' & Hk' & _).
    destruct (Hstr k' w Hk') as [s' ->]. reflexivity. }
  split; [exact H|].
  unfold arbitraryBuilders, def. rewrite H.
  change (fc_constant <$> map snd entries)
    with (map fc_constant (map snd entries)).
  rewrite map_map. reflexivity.
Qed.

(** [z.enum(["north", "south"])] *)
Lemma string_enum_keeps_every_member_witness :
  getValidEnumValues [("north", Js.VStr "north"); ("south", Js.VStr "south")]
  = [Js.VStr "north"; Js.VStr "south"].
Proof.
  apply (string_enum_keeps_every_member (fun _ _ => OutOfFuel) 1 "ZodEnum"
           EmptyString [("north", Js.VStr "north"); ("south", Js.VStr "south")]).
  intros k v [[= <- <-]|[[= <- <-]|[]]]; eauto.
Defined.

(** X16. The object of a numeric enum, where every number has a reverse
    entry, every reverse entry names a member, and no name is the decimal
    form of one of the numbers: the reverse entries are dropped and
    exactly the numbers of the members are kept, in their order. *)
Theorem numeric_enum_drops_reverse_mapping
    (members rs : list (string * Z)) :
  (∀ name n, In (name, n) members → ∃ name', In (name', n) rs) →
  (∀ name n, In (name, n) rs → ∃ m, In (name, m) members) →
  (∀ name n name' n', In (name, n) rs → In (name', n') rs →
                      name ≠ pretty n') →
  getValidEnumValues (enum_reverse rs ++ enum_forward members)
  = map (fun e => Js.VNum (Js.of_Z (snd e))) members.
Proof.
  intros Hrev Hname Hfresh.
  set (obj := enum_reverse rs ++ enum_forward members).
  assert (Hkeys : ∀ name n, In (name, n) rs →
            ∀ k v, In (k, v) (enum_reverse rs) → k ≠ name).
  { intros name n Hin k v Hk. unfold enum_reverse in Hk.
    apply in_map_iff in Hk as ([name' n'] & [= <- <-] & Hin').
    intros E. apply (Hfresh name n name' n' Hin Hin'). symmetry. exact E. }
  unfold getValidEnumValues. fold obj. unfold obj at 2.
  rewrite List.filter_app, filter_none, filter_all.
  - simpl. unfold enum_forward.
    change (snd <$> map ?f members) with (map snd (map f members)).
    rewrite map_map. reflexivity.
  - intros [k v] Hin. unfold enum_forward in Hin.
    apply in_map_iff in Hin as ([name n] & [= <- <-] & Hin). simpl.
    destruct (Hrev name n Hin) as [name' Hin'].
    assert (Hk : In (pretty n, Js.VStr name') (enum_reverse rs)).
    { unfold enum_reverse. apply in_map_iff.
      exists (name', n). split; [reflexivity | exact Hin']. }
    destruct (property_is_Some _ _ _ Hk) as (w & k' & Hw & Hin'').
    unfold obj. rewrite (property_app_l _ _ _ _ Hw).
    unfold enum_reverse in Hin''.
    apply in_map_iff in Hin'' as (e & [= _ <-] & _). reflexivity.
  - intros [k v] Hin. unfold enum_reverse in Hin.
    apply in_map_iff in Hin as ([name n] & [= <- <-] & Hin). simpl.
    unfold obj. rewrite (property_app_r _ _ _ (Hkeys name n Hin)).
    destruct (Hname name n Hin) as [m Hm].
    assert (Hk : In (name, Js.VNum (Js.of_Z m)) (enum_forward members)).
    { unfold enum_forward. apply in_map_iff.
      exists (name, m). split; [reflexivity | exact Hm]. }
    destruct (property_is_Some _ _ _ Hk) as (w & k' & Hw & Hin'').
    rewrite Hw. unfold enum_forward in Hin''.
    apply in_map_iff in Hin'' as (e & [= _ <-] & _). reflexivity.
Qed.

(** [enum Level { Low, High }], whose object is
    [{ 0: "Low", 1: "High", Low: 0, High: 1 }]. *)
Lemma numeric_enum_drops_reverse_mapping_witness :
  getValidEnumValues
    [("0", Js.VStr "Low"); ("1", Js.VStr "High");
     ("Low", Js.VNum (Js.of_Z 0)); ("High", Js.VNum (Js.of_Z 1))]
  = [Js.VNum (Js.of_Z 0); Js.VNum (Js.of_Z 1)].
Proof.
  apply (numeric_enum_drops_reverse_mapping
           [("Low", 0); ("High", 1)] [("Low", 0); ("High", 1)]).
  - intros name n Hin. exists name. exact Hin.
  - intros name n Hin. exists n. exact Hin.
  - intros name n name' n' [[= <- <-]|[[= <- <-]|[]]]
      [[= <- <-]|[[= <- <-]|[]]]; vm_compute; discriminate.
Defined.

End EnumMore.

(** ** Chains of overrides *)

Module InstanceMore.
Import Instance.

Lemma inputWithPath_fixed overrides fuel schema path arb :
  overrides !! node_id schema = Some (Fixed arb) →
  inputWithPath overrides (S fuel) schema path = Ok arb.
Proof.
  intros Hov. simpl. unfold findOverride. rewrite Hov. reflexivity.
Qed.

(** X17. Two overrides in a row, on an existing instance and then on the
    instance the first one returned: three distinct instances result;
    the last holds both entries, the second entry over the first where
    they name the same node; the intermediate instance holds the first
    entry only; the original is unchanged; and each derived instance
    compiles the node it was given a fixed generator for to that
    generator. *)
Theorem override_chain
    (h : Heap) (this : positive) (schema1 schema2 : Schema)
    (arbitrary1 arbitrary2 : OverrideArbitrary) :
  is_Some (h !! this) →
  let first := override h this schema1 arbitrary1 in
  let second := override (snd first) (fst first) schema2 arbitrary2 in
  fst first ≠ this ∧ fst second ≠ this ∧ fst second ≠ fst first
  ∧ overrides_of (snd second) (fst second)
    = <[node_id schema2 := arbitrary2]>
        (<[node_id schema1 := arbitrary1]> (overrides_of h this))
  ∧ overrides_of (snd second) (fst first)
    = <[node_id schema1 := arbitrary1]> (overrides_of h this)
  ∧ overrides_of (snd second) this = overrides_of h this
  ∧ (∀ fuel path arb, arbitrary2 = Fixed arb →
       inputWithPath (overrides_of (snd second) (fst second)) (S fuel)
         schema2 path = Ok arb)
  ∧ (∀ fuel path arb, arbitrary1 = Fixed arb →
       inputWithPath (overrides_of (snd second) (fst first)) (S fuel)
         schema1 path = Ok arb).
Proof.
  intros Hthis first second. subst first second.
  rewrite (InstanceFacts.override_inserts h this schema1 arbitrary1).
  cbn [fst snd]. rewrite InstanceFacts.override_inserts. cbn [fst snd].
  set (w1 := fst (new h)).
  set (h1 := <[w1 := <[node_id schema1 := arbitrary1]> (overrides_of h this)]> h).
  set (w2 := fst (new h1)).
  pose proof (InstanceFacts.new_fresh h) as Hf1. fold w1 in Hf1.
  pose proof (InstanceFacts.new_fresh h1) as Hf2. fold w2 in Hf2.
  assert (Hw1 : w1 ≠ this).
  { intros E. rewrite E in Hf1. destruct Hthis as [ov Hov]. congruence. }
  assert (H1w1 : h1 !! w1
                 = Some (<[node_id schema1 := arbitrary1]> (overrides_of h this))).
  { unfold h1. apply lookup_insert_eq. }
  assert (H1this : h1 !! this = h !! this).
  { unfold h1. apply lookup_insert_ne. exact Hw1. }
  assert (Hw21 : w2 ≠ w1) by (intros E; rewrite E in Hf2; congruence).
  assert (Hw2 : w2 ≠ this).
  { intros E. rewrite E, H1this in Hf2. destruct Hthis as [ov Hov]. congruence. }
  assert (Ho1 : overrides_of h1 w1
                = <[node_id schema1 := arbitrary1]> (overrides_of h this)).
  { unfold overrides_of at 1. rewrite H1w1. reflexivity. }
  rewrite Ho1.
  set (ov2 := <[node_id schema2 := arbitrary2]>
                (<[node_id schema1 := arbitrary1]> (overrides_of h this))).
  assert (E2 : overrides_of (<[w2 := ov2]> h1) w2 = ov2).
  { unfold overrides_of. rewrite lookup_insert_eq. reflexivity. }
  assert (E1 : overrides_of (<[w2 := ov2]> h1) w1
               = <[node_id schema1 := arbitrary1]> (overrides_of h this)).
  { unfold overrides_of at 1. rewrite lookup_insert_ne by exact Hw21.
    rewrite H1w1. reflexivity. }
  assert (E0 : overrides_of (<[w2 := ov2]> h1) this = overrides_of h this).
  { unfold overrides_of at 1. rewrite lookup_insert_ne by exact Hw2.
    rewrite H1this. reflexivity. }
  repeat split; try assumption.
  - intros fuel path arb ->. apply inputWithPath_fixed.
    rewrite E2. unfold ov2. apply lookup_insert_eq.
  - intros fuel path arb ->. apply inputWithPath_fixed.
    rewrite E1. apply lookup_insert_eq.
Qed.

(** One string node overridden twice: the intermediate instance answers
    with the uuid generator, the last one with the url generator. *)
Lemma override_chain_witness :
  let h : Heap := {[ 1%positive := ∅ ]} in
  let name := Node 10 "ZodString" (TString None) in
  let first := override h 1 name (Fixed fc_uuid) in
  let second := override (snd first) (fst first) name (Fixed fc_webUrl) in
  inputOf (overrides_of (snd second) (fst second)) 1 name = Ok fc_webUrl
  ∧ inputOf (overrides_of (snd second) (fst first)) 1 name = Ok fc_uuid.
Proof.
  intros h name first second.
  assert (Hthis : is_Some (h !! 1%positive)) by (vm_compute; eauto).
  destruct (override_chain h 1 name name (Fixed fc_uuid) (Fixed fc_webUrl)
              Hthis) as (_ & _ & _ & _ & _ & _ & H2 & H1).
  split; [apply (H2 O EmptyString _ eq_refl) | apply (H1 O EmptyString _ eq_refl)].
Defined.

End InstanceMore.

(** ** The shape of a cuid *)

Module CuidMore.

Lemma length_zeros n : String.length (Cuid.zeros n) = n.
Proof. induction n as [|n IH]; simpl; [reflexivity | rewrite IH; reflexivity]. Qed.

Lemma pretty_at_most_4 (n : Z) :
  0 ≤ n ≤ 9999 → (String.length (pretty n) ≤ 4)%nat.
Proof.
  intros Hn.
  assert (H : forallb (fun k => String.length (pretty (Z.of_nat k)) <=? 4)%nat
                (seq 0 (100 * 100)) = true) by (vm_compute; reflexivity).
  rewrite forallb_forall in H.
  rewrite <- (Z2Nat.id n) by lia.
  apply Nat.leb_le, H, in_seq. lia.
Qed.

(** X18. A cuid assembled from a timestamp of 8 characters, a counter
    between 0 and 9999, a fingerprint of 4 characters and a random part
    of 8 characters has 25 characters, begins with the letter c, and
    carries the counter as exactly four characters. *)
Theorem cuid_shape (timestamp fingerprint random : string) (n : Z) :
  String.length timestamp = 8%nat →
  0 ≤ n ≤ 9999 →
  String.length fingerprint = 4%nat →
  String.length random = 8%nat →
  String.length (Cuid.assemble timestamp n fingerprint random) = 25%nat
  ∧ String.get 0 (Cuid.assemble timestamp n fingerprint random) = Some "c"%char
  ∧ String.length (Cuid.counter n) = 4%nat.
Proof.
  intros Ht Hn Hf Hr.
  assert (Hc : String.length (Cuid.counter n) = 4%nat).
  { unfold Cuid.counter, Cuid.padStart_0.
    rewrite StringMore.length_append, length_zeros.
    pose proof (pretty_at_most_4 n Hn). lia. }
  split; [|split; [reflexivity | exact Hc]].
  unfold Cuid.assemble. rewrite !StringMore.length_append, Ht, Hc, Hf, Hr.
  reflexivity.
Qed.

Lemma cuid_shape_witness :
  Cuid.assemble "0a1b2c3d" 42 "beef" "89abcdef" = "c0a1b2c3d0042beef89abcdef"
  ∧ String.length (Cuid.assemble "0a1b2c3d" 42 "beef" "89abcdef") = 25%nat.
Proof.
  split; [vm_compute; reflexivity|].
  apply (cuid_shape "0a1b2c3d" "beef" "89abcdef" 42);
    [reflexivity | lia | reflexivity..].
Defined.

End CuidMore.
